(* A shallow embedding of the task / swim-lane store of the kanban board
   (src/src/context/TaskContext.tsx, types in src/unnamed/part_005).

   - The JS objects used as dictionaries ([TaskMap], [TasksByStatus], the
     [laneMap] of [reorderSwimLanes]) are stdpp [gmap]s keyed by strings.
   - Each store operation is the state update its handler performs, as a
     function [Store -> Store]: the functional updaters given to
     [setTasks], [setTasksByStatus] and [setSwimLanes] are applied in the
     order the handler queues them.
   - The values a handler reads from the environment are parameters: the
     fresh [uuidv4()] identifier, the [new Date().toISOString()] timestamp
     ([now]) and the random palette index of [addSwimLane] ([pick]).
   - The [useEffect] on [swimLanes] that adds an empty index entry for every
     lane lacking one is [ensureLaneEntries]; [run_op] applies it after the
     operations that replace the lane list. *)

From stdpp Require Import base gmap strings list.

(* ------------------------------------------------------------------ *)
(* Data model (src/unnamed/part_005)                                    *)
(* ------------------------------------------------------------------ *)

(** [export type Priority = 1 | 2 | 3]. *)
Inductive Priority := P1 | P2 | P3.

#[global] Instance Priority_eq_dec : EqDecision Priority.
Proof. solve_decision. Defined.

(** [export interface Task]. *)
Module Task.
Record t := mk {
  id : string;
  title : string;
  description : string;
  priority : Priority;
  desiredDate : string;
  actualDeliveryDate : option string;
  label : string;
  status : string;
  assignee : option string;
  creator : option string;
  createdAt : string;
  updatedAt : string
}.
End Task.

(** [Omit<Task, 'id' | 'createdAt' | 'updatedAt'>], the argument of [addTask]. *)
Module TaskData.
Record t := mk {
  title : string;
  description : string;
  priority : Priority;
  desiredDate : string;
  actualDeliveryDate : option string;
  label : string;
  status : string;
  assignee : option string;
  creator : option string
}.
End TaskData.

(** [Partial<Task>]: [None] is a missing key; for the optional fields of
    [Task], [Some None] is a key present with value [undefined]. *)
Module PartialTask.
Record t := mk {
  id : option string;
  title : option string;
  description : option string;
  priority : option Priority;
  desiredDate : option string;
  actualDeliveryDate : option (option string);
  label : option string;
  status : option string;
  assignee : option (option string);
  creator : option (option string);
  createdAt : option string;
  updatedAt : option string
}.

(** [{}] *)
Definition empty : t :=
  mk None None None None None None None None None None None None.

(** [{ status: s }], the partial [deleteSwimLane] passes to [updateTask]. *)
Definition with_status (s : string) : t :=
  mk None None None None None None None (Some s) None None None None.
End PartialTask.

(** [export interface SwimLane]. *)
Module SwimLane.
Record t := mk {
  id : string;
  name : string;
  color : string
}.
End SwimLane.

(** [Partial<SwimLane>]. *)
Module PartialSwimLane.
Record t := mk {
  id : option string;
  name : option string;
  color : option string
}.
End PartialSwimLane.

(** The provider's state: [tasks] ([TaskMap]), [tasksByStatus]
    ([TasksByStatus]) and [swimLanes]. *)
Record Store := mkStore {
  tasks : gmap string Task.t;
  tasksByStatus : gmap string (list string);
  swimLanes : list SwimLane.t
}.

(** [DEFAULT_SWIMLANES]. *)
Definition DEFAULT_SWIMLANES : list SwimLane.t := [
  SwimLane.mk "todo" "To-do" "blue";
  SwimLane.mk "planning" "Planning" "purple";
  SwimLane.mk "in-progress" "In-progress" "amber";
  SwimLane.mk "testing" "Testing" "cyan";
  SwimLane.mk "done" "Done" "green"
].

(** [prev[status] || []]: a lane's index entry, an absent entry read as [[]]
    (an array, even empty, is truthy). *)
Definition laneEntry (s : Store) (status : string) : list string :=
  default [] (tasksByStatus s !! status).

(** [Array.from(new Set(xs))]: the elements of [xs] in the order of their
    first occurrence. *)
Definition setAdd (acc : list string) (x : string) : list string :=
  if decide (x ∈ acc) then acc else acc ++ [x].

Definition array_from_set (xs : list string) : list string :=
  foldl setAdd [] xs.

(* ------------------------------------------------------------------ *)
(* Task operations (TaskContext.tsx)                                    *)
(* ------------------------------------------------------------------ *)

(** [addTask]: [id] is the value of [uuidv4()], [now] the timestamp.
    Returns the new store and the created task. *)
Definition addTask (id now : string) (taskData : TaskData.t) (s : Store)
  : Store * Task.t :=
  let newTask := Task.mk id (TaskData.title taskData) (TaskData.description taskData)
    (TaskData.priority taskData) (TaskData.desiredDate taskData)
    (TaskData.actualDeliveryDate taskData) (TaskData.label taskData)
    (TaskData.status taskData) (TaskData.assignee taskData)
    (TaskData.creator taskData) now now in
  let statusTasks := laneEntry s (Task.status newTask) in
  (mkStore (<[id := newTask]> (tasks s))
           (<[Task.status newTask := statusTasks ++ [id]]> (tasksByStatus s))
           (swimLanes s),
   newTask).

(** [{ ...task, ...taskData, updatedAt: now }]. *)
Definition mergeTask (task : Task.t) (taskData : PartialTask.t) (now : string) : Task.t :=
  Task.mk
    (default (Task.id task) (PartialTask.id taskData))
    (default (Task.title task) (PartialTask.title taskData))
    (default (Task.description task) (PartialTask.description taskData))
    (default (Task.priority task) (PartialTask.priority taskData))
    (default (Task.desiredDate task) (PartialTask.desiredDate taskData))
    (default (Task.actualDeliveryDate task) (PartialTask.actualDeliveryDate taskData))
    (default (Task.label task) (PartialTask.label taskData))
    (default (Task.status task) (PartialTask.status taskData))
    (default (Task.assignee task) (PartialTask.assignee taskData))
    (default (Task.creator task) (PartialTask.creator taskData))
    (default (Task.createdAt task) (PartialTask.createdAt taskData))
    now.

(** [updateTask]: both branches of the status test return
    [{ ...prevTasks, [id]: updatedTask }]; [tasksByStatus] is not touched. *)
Definition updateTask (id : string) (taskData : PartialTask.t) (now : string) (s : Store)
  : Store :=
  match tasks s !! id with
  | None => s
  | Some task =>
      mkStore (<[id := mergeTask task taskData now]> (tasks s))
              (tasksByStatus s) (swimLanes s)
  end.

(** [deleteTask]: [const status = tasks[id]?.status; if (!status) return;]
    — a missing task and the empty status [""] both return early. *)
Definition deleteTask (id : string) (s : Store) : Store :=
  match Task.status <$> (tasks s !! id) with
  | None => s
  | Some status =>
      if String.eqb status "" then s else
      mkStore (delete id (tasks s))
              (<[status := filter (fun taskId => taskId ≠ id) (laneEntry s status)]>
                 (tasksByStatus s))
              (swimLanes s)
  end.

(** [moveTask]. The index update
    [{ ...prev, [oldStatus]: oldStatusTasks, [newStatus]: uniqueNewStatusTasks }]
    inserts the old lane's entry first, then the new lane's. *)
Definition moveTask (taskId newStatus now : string) (s : Store) : Store :=
  match tasks s !! taskId with
  | None => s
  | Some task =>
      if decide (Task.status task = newStatus) then s else
      let oldStatus := Task.status task in
      let updated := Task.mk (Task.id task) (Task.title task) (Task.description task)
        (Task.priority task) (Task.desiredDate task) (Task.actualDeliveryDate task)
        (Task.label task) newStatus (Task.assignee task) (Task.creator task)
        (Task.createdAt task) now in
      let oldStatusTasks := filter (fun id => id ≠ taskId) (laneEntry s oldStatus) in
      let newStatusTasks := laneEntry s newStatus ++ [taskId] in
      let uniqueNewStatusTasks := array_from_set newStatusTasks in
      mkStore (<[taskId := updated]> (tasks s))
              (<[newStatus := uniqueNewStatusTasks]>
                 (<[oldStatus := oldStatusTasks]> (tasksByStatus s)))
              (swimLanes s)
  end.

(** [reorderTasks]. *)
Definition reorderTasks (status : string) (newOrder : list string) (s : Store) : Store :=
  mkStore (tasks s) (<[status := newOrder]> (tasksByStatus s)) (swimLanes s).

(* ------------------------------------------------------------------ *)
(* Swim-lane operations (TaskContext.tsx)                               *)
(* ------------------------------------------------------------------ *)

Definition colors : list string :=
  ["blue"; "purple"; "amber"; "cyan"; "green"; "indigo"; "pink"; "rose"; "orange"; "teal"].

(** [addSwimLane]: [id] is the value of [uuidv4()] and [pick] stands for
    [Math.floor(Math.random() * colors.length)]. *)
Definition addSwimLane (id name : string) (pick : nat) (s : Store) : Store :=
  let randomColor := nth (pick mod length colors) colors "blue" in
  let newLane := SwimLane.mk id name randomColor in
  mkStore (tasks s) (<[id := []]> (tasksByStatus s)) (swimLanes s ++ [newLane]).

(** [{ ...lane, ...updates }]. *)
Definition mergeLane (lane : SwimLane.t) (updates : PartialSwimLane.t) : SwimLane.t :=
  SwimLane.mk (default (SwimLane.id lane) (PartialSwimLane.id updates))
              (default (SwimLane.name lane) (PartialSwimLane.name updates))
              (default (SwimLane.color lane) (PartialSwimLane.color updates)).

(** [updateSwimLane]. *)
Definition updateSwimLane (id : string) (updates : PartialSwimLane.t) (s : Store) : Store :=
  mkStore (tasks s) (tasksByStatus s)
    (map (fun lane => if decide (SwimLane.id lane = id) then mergeLane lane updates else lane)
         (swimLanes s)).

(** [deleteSwimLane]. [tasksInLane] and [otherLanes] are read from the
    current state; each [updateTask(taskId, { status: targetLaneId })] is
    applied in turn, all with the timestamp [now]. *)
Definition deleteSwimLane (id now : string) (s : Store) : Store :=
  let tasksInLane := laneEntry s id in
  let s1 :=
    match tasksInLane with
    | [] => mkStore (tasks s) (delete id (tasksByStatus s)) (swimLanes s)
    | _ :: _ =>
        let otherLanes := filter (fun lane => SwimLane.id lane ≠ id) (swimLanes s) in
        match otherLanes with
        | targetLane :: _ =>
            let targetLaneId := SwimLane.id targetLane in
            let s' := foldl (fun st taskId =>
                               updateTask taskId (PartialTask.with_status targetLaneId) now st)
                            s tasksInLane in
            let newTasksByStatus := delete id (tasksByStatus s') in
            mkStore (tasks s')
                    (<[targetLaneId := default [] (newTasksByStatus !! targetLaneId)
                                       ++ tasksInLane]> newTasksByStatus)
                    (swimLanes s')
        | [] =>
            mkStore (foldl (fun m taskId => delete taskId m) (tasks s) tasksInLane)
                    (delete id (tasksByStatus s)) (swimLanes s)
        end
    end in
  mkStore (tasks s1) (tasksByStatus s1)
          (filter (fun lane => SwimLane.id lane ≠ id) (swimLanes s1)).

(** The [laneMap] of [reorderSwimLanes]: [prev.reduce((acc, lane) =>
    { acc[lane.id] = lane; return acc; }, {})]. *)
Definition laneMap (lanes : list SwimLane.t) : gmap string SwimLane.t :=
  foldl (fun acc lane => <[SwimLane.id lane := lane]> acc) ∅ lanes.

(** [reorderSwimLanes]: [newOrder.map(id => laneMap[id]).filter(Boolean)];
    a lane record is truthy, so the filter drops exactly the misses. *)
Definition reorderSwimLanes (newOrder : list string) (s : Store) : Store :=
  mkStore (tasks s) (tasksByStatus s)
          (omap (fun id => laneMap (swimLanes s) !! id) newOrder).

(** The [useEffect] on [swimLanes]: every lane without an index entry gets
    [[]] ([!newTasksByStatus[lane.id]] holds only for a missing entry). *)
Definition ensureLaneEntries (s : Store) : Store :=
  mkStore (tasks s)
    (foldl (fun acc lane =>
              match acc !! SwimLane.id lane with
              | Some _ => acc
              | None => <[SwimLane.id lane := []]> acc
              end) (tasksByStatus s) (swimLanes s))
    (swimLanes s).

(* ------------------------------------------------------------------ *)
(* Sequences of operations                                              *)
(* ------------------------------------------------------------------ *)

(** The operations of [TaskContextType], with the values each handler
    reads from the environment. *)
Inductive op :=
| OpAddTask (id now : string) (taskData : TaskData.t)
| OpUpdateTask (id : string) (taskData : PartialTask.t) (now : string)
| OpDeleteTask (id : string)
| OpMoveTask (taskId newStatus now : string)
| OpReorderTasks (status : string) (newOrder : list string)
| OpAddSwimLane (id name : string) (pick : nat)
| OpUpdateSwimLane (id : string) (updates : PartialSwimLane.t)
| OpDeleteSwimLane (id now : string)
| OpReorderSwimLanes (newOrder : list string).

(** One operation, followed by the lane-entry effect when the operation
    replaced the lane list. *)
Definition run_op (o : op) (s : Store) : Store :=
  match o with
  | OpAddTask id now d => fst (addTask id now d s)
  | OpUpdateTask id p now => updateTask id p now s
  | OpDeleteTask id => deleteTask id s
  | OpMoveTask id st now => moveTask id st now s
  | OpReorderTasks st l => reorderTasks st l s
  | OpAddSwimLane id name pick => ensureLaneEntries (addSwimLane id name pick s)
  | OpUpdateSwimLane id u => ensureLaneEntries (updateSwimLane id u s)
  | OpDeleteSwimLane id now => ensureLaneEntries (deleteSwimLane id now s)
  | OpReorderSwimLanes l => ensureLaneEntries (reorderSwimLanes l s)
  end.

Definition run (ops : list op) (s : Store) : Store :=
  foldl (fun st o => run_op o st) s ops.

(* ------------------------------------------------------------------ *)
(* The persistence effect (TaskContext.tsx)                             *)
(* ------------------------------------------------------------------ *)

(** The guard of the [useEffect] saving the tasks:
    [Object.keys(tasks).length > 0 || Object.keys(tasksByStatus).length > 0]. *)
Definition saveTasksWrites (s : Store) : bool :=
  (0 <? size (tasks s)) || (0 <? size (tasksByStatus s)).

(* ------------------------------------------------------------------ *)
(* Array helpers used by the drag handlers                              *)
(* ------------------------------------------------------------------ *)

(** [xs.findIndex(p)], with [None] for [-1]. *)
Fixpoint findIndex {A} (p : A -> bool) (xs : list A) : option nat :=
  match xs with
  | [] => None
  | x :: xs' => if p x then Some 0 else S <$> findIndex p xs'
  end.

(** [xs.indexOf(x)]. *)
Definition indexOf (xs : list string) (x : string) : option nat :=
  findIndex (String.eqb x) xs.

(** [arrayMove] of [@dnd-kit/sortable]: copy the array, [splice] out the
    element at [from] and [splice] it back in at [to]. Both handlers call it
    only with indices they found in the array; an index out of range is
    not reached. *)
Definition arrayMove {A} (xs : list A) (from to : nat) : list A :=
  match xs !! from with
  | Some x =>
      let removed := take from xs ++ drop (S from) xs in
      take to removed ++ [x] ++ drop to removed
  | None => xs
  end.

(** [String.prototype.toLowerCase] on the ASCII letters. *)
Definition lowerAscii (c : Ascii.ascii) : Ascii.ascii :=
  let n := Ascii.nat_of_ascii c in
  if (65 <=? n) && (n <=? 90) then Ascii.ascii_of_nat (n + 32) else c.

Fixpoint toLowerCase (s : string) : string :=
  match s with
  | String.EmptyString => String.EmptyString
  | String.String c s' => String.String (lowerAscii c) (toLowerCase s')
  end.

(** [s.includes(pat)]: [pat] is a prefix of some suffix of [s]. *)
Fixpoint includes (s pat : string) : bool :=
  String.prefix pat s ||
  match s with
  | String.EmptyString => false
  | String.String _ s' => includes s' pat
  end.

(* ------------------------------------------------------------------ *)
(* Drag handlers (components)                                           *)
(* ------------------------------------------------------------------ *)

(** [KanbanBoard.handleDragEnd] (src/src/components/KanbanBoard.tsx): the
    dragged task [activeId] is dropped on [over] (a lane or a task
    identifier, [None] when dropped outside). Returns the store after the
    queued update and whether [triggerConfetti] ran. *)
Module KanbanBoard.

Definition isDoneLane (lane : SwimLane.t) : bool :=
  let n := toLowerCase (SwimLane.name lane) in
  includes n "done" || includes n "complete" || includes n "release".

Definition handleDragEnd (activeId : string) (over : option string) (now : string)
    (s : Store) : Store * bool :=
  match over with
  | None => (s, false)
  | Some overId =>
    if String.eqb activeId "" then (s, false) else
    match tasks s !! activeId with
    | None => (s, false)
    | Some activeTask =>
      let currentStatus := Task.status activeTask in
      if String.eqb overId activeId then (s, false) else
      let isOverAColumn := existsb (fun lane => String.eqb (SwimLane.id lane) overId)
                                   (swimLanes s) in
      let finalTargetLaneId :=
        if isOverAColumn then Some overId else Task.status <$> tasks s !! overId in
      match finalTargetLaneId with
      | None => (s, false)
      | Some finalTarget =>
        if String.eqb finalTarget "" then (s, false) else
        if negb (String.eqb finalTarget currentStatus) then
          let doneOrReleaseLaneIds :=
            SwimLane.id <$> filter (fun lane => isDoneLane lane = true) (swimLanes s) in
          (moveTask activeId finalTarget now s,
           negb (bool_decide (currentStatus ∈ doneOrReleaseLaneIds))
           && bool_decide (finalTarget ∈ doneOrReleaseLaneIds))
        else
          match tasks s !! overId with
          | Some overTask =>
            if String.eqb (Task.status overTask) currentStatus then
              match tasksByStatus s !! currentStatus with
              | None => (s, false)
              | Some taskList =>
                match indexOf taskList activeId, indexOf taskList overId with
                | Some activeIndex, Some overTaskIndex =>
                  (reorderTasks currentStatus (arrayMove taskList activeIndex overTaskIndex) s,
                   false)
                | _, _ => (s, false)
                end
              end
            else (s, false)
          | None => (s, false)
          end
      end
    end
  end.

End KanbanBoard.

(** [SwimLaneManager.handleDragEnd] (src/src/components/SwimLaneManager.tsx):
    lane [activeId] dropped on lane [over]. *)
Module SwimLaneManager.

Definition handleDragEnd (activeId : string) (over : option string) (s : Store) : Store :=
  match over with
  | None => s
  | Some overId =>
    if String.eqb activeId overId then s else
    match findIndex (fun lane => String.eqb (SwimLane.id lane) activeId) (swimLanes s),
          findIndex (fun lane => String.eqb (SwimLane.id lane) overId) (swimLanes s) with
    | Some oldIndex, Some newIndex =>
        reorderSwimLanes (arrayMove (SwimLane.id <$> swimLanes s) oldIndex newIndex) s
    | _, _ => s
    end
  end.

End SwimLaneManager.

(** The task list of [TasksPage] (src/src/pages/TasksPage.tsx). *)
Module TasksPage.

(** [parseInt] on a string starting with decimal digits ([None] for
    [NaN]); the priority filter only takes ["all"], ["1"], ["2"], ["3"]. *)
Fixpoint digits (s : string) (acc : option Z) : option Z :=
  match s with
  | String.String c s' =>
      let n := Ascii.nat_of_ascii c in
      if (48 <=? n) && (n <=? 57)
      then digits s' (Some (10 * default 0%Z acc + Z.of_nat (n - 48))%Z)
      else acc
  | String.EmptyString => acc
  end.

Definition parseInt (s : string) : option Z := digits s None.

Definition priorityNum (p : Priority) : Z :=
  match p with P1 => 1 | P2 => 2 | P3 => 3 end.

(** The filter state; a picked date is represented by its
    [toDateString()]. *)
Record Filters := mkFilters {
  titleFilter : string;
  statusFilter : string;
  priorityFilter : string;
  labelFilter : string;
  desiredDateFilter : option string;
  deliveredDateFilter : option string
}.

(** [clearFilters]. *)
Definition clearFilters : Filters := mkFilters "" "all" "all" "" None None.

Definition truthy (s : string) : bool := negb (String.eqb s "").

(** The predicate of [allTasks.filter(task => ...)];
    [toDateString d] is [new Date(d).toDateString()]. *)
Definition taskMatches (toDateString : string -> string) (f : Filters) (task : Task.t) : bool :=
  if truthy (titleFilter f) &&
     negb (includes (toLowerCase (Task.title task)) (toLowerCase (titleFilter f)))
  then false else
  if truthy (statusFilter f) && negb (String.eqb (statusFilter f) "all") &&
     negb (String.eqb (Task.status task) (statusFilter f))
  then false else
  if truthy (priorityFilter f) && negb (String.eqb (priorityFilter f) "all") &&
     negb (bool_decide (Some (priorityNum (Task.priority task)) = parseInt (priorityFilter f)))
  then false else
  if truthy (labelFilter f) &&
     negb (includes (toLowerCase (Task.label task)) (toLowerCase (labelFilter f)))
  then false else
  match desiredDateFilter f with
  | Some d =>
      if truthy (Task.desiredDate task) &&
         negb (String.eqb (toDateString (Task.desiredDate task)) d)
      then false else
      match deliveredDateFilter f, Task.actualDeliveryDate task with
      | Some d', Some a =>
          if truthy a && negb (String.eqb (toDateString a) d') then false else true
      | _, _ => true
      end
  | None =>
      match deliveredDateFilter f, Task.actualDeliveryDate task with
      | Some d', Some a =>
          if truthy a && negb (String.eqb (toDateString a) d') then false else true
      | _, _ => true
      end
  end.

(** [Object.values(tasks)], in the map's order (the page sorts the
    filtered list afterwards). *)
Definition allTasks (s : Store) : list Task.t := snd <$> map_to_list (tasks s).

(** [filteredTasks] before its [sort] by [createdAt] (a permutation). *)
Definition filteredTasks (toDateString : string -> string) (f : Filters) (s : Store)
  : list Task.t :=
  filter (fun task => taskMatches toDateString f task = true) (allTasks s).

(** [priorityCount]: the numbers of tasks of priority 1, 2 and 3. *)
Definition priorityCount (s : Store) : nat * nat * nat :=
  (length (filter (fun task => Task.priority task = P1) (allTasks s)),
   length (filter (fun task => Task.priority task = P2) (allTasks s)),
   length (filter (fun task => Task.priority task = P3) (allTasks s))).

End TasksPage.

(* ------------------------------------------------------------------ *)
(* Concrete states                                                      *)
(* ------------------------------------------------------------------ *)

(** The settled initial state: no task, the default lanes, each with an
    empty index entry. *)
Definition initialStore : Store :=
  ensureLaneEntries (mkStore ∅ ∅ DEFAULT_SWIMLANES).

Definition fixBug (status : string) : TaskData.t :=
  TaskData.mk "Fix bug" "Crash on save" P2 "2026-01-01" None "" status None None.

Example array_from_set_ex : array_from_set ["a"; "b"; "a"; "c"; "b"] = ["a"; "b"; "c"].
Proof. reflexivity. Qed.

Example initial_entries : laneEntry initialStore "todo" = [] /\
  tasksByStatus initialStore !! "done" = Some [].
Proof. split; reflexivity. Qed.

Example add_move_ex :
  let s1 := fst (addTask "t1" "T0" (fixBug "todo") initialStore) in
  let s2 := moveTask "t1" "done" "T1" s1 in
  laneEntry s1 "todo" = ["t1"] /\ laneEntry s2 "todo" = [] /\ laneEntry s2 "done" = ["t1"]
  /\ (Task.status <$> tasks s2 !! "t1") = Some "done".
Proof. vm_compute. repeat split. Qed.

Example reorder_lanes_ex :
  map SwimLane.id (swimLanes (reorderSwimLanes ["done"; "x"; "todo"] initialStore))
  = ["done"; "todo"].
Proof. reflexivity. Qed.

(* ------------------------------------------------------------------ *)
(* Store invariants                                                     *)
(* ------------------------------------------------------------------ *)

(** The index agrees with the tasks: a task's identifier occurs exactly
    once in the entry of its [status] and in no other entry. *)
Definition consistent (s : Store) : Prop :=
  forall k task, tasks s !! k = Some task ->
    count_occ String.string_dec (laneEntry s (Task.status task)) k = 1 /\
    forall l, l <> Task.status task -> k ∉ laneEntry s l.

(** Every task's [status] is the identifier of a lane of the list. *)
Definition statuses_valid (s : Store) : Prop :=
  forall k task, tasks s !! k = Some task -> Task.status task ∈ SwimLane.id <$> swimLanes s.

(* ------------------------------------------------------------------ *)
(* Helper lemmas                                                        *)
(* ------------------------------------------------------------------ *)

Section SetFromArray.

Lemma setAdd_fold_elem (acc xs : list string) (x : string) :
  x ∈ foldl setAdd acc xs <-> x ∈ acc \/ x ∈ xs.
Proof.
  revert acc. induction xs as [|y xs IH]; intros acc; simpl.
  - set_solver.
  - rewrite IH. unfold setAdd. case_decide; set_solver.
Qed.

Lemma setAdd_fold_NoDup (acc xs : list string) :
  NoDup acc -> NoDup (foldl setAdd acc xs).
Proof.
  revert acc. induction xs as [|y xs IH]; intros acc Hacc; simpl; [done|].
  apply IH. unfold setAdd. case_decide; [done|].
  apply NoDup_app. split; [done|]. split; [|apply NoDup_singleton]. set_solver.
Qed.

Lemma setAdd_fold_fresh (acc xs : list string) :
  NoDup (acc ++ xs) -> foldl setAdd acc xs = acc ++ xs.
Proof.
  revert acc. induction xs as [|y xs IH]; intros acc Hnd; simpl.
  - by rewrite app_nil_r.
  - unfold setAdd at 2. rewrite decide_False.
    + rewrite IH; [by rewrite <- app_assoc|]. by rewrite <- app_assoc.
    + apply NoDup_app in Hnd as (_ & Hd & _). intros Hy. apply (Hd y Hy). set_solver.
Qed.

Lemma array_from_set_elem (xs : list string) (x : string) :
  x ∈ array_from_set xs <-> x ∈ xs.
Proof. unfold array_from_set. rewrite setAdd_fold_elem. set_solver. Qed.

Lemma array_from_set_NoDup (xs : list string) : NoDup (array_from_set xs).
Proof. apply setAdd_fold_NoDup, NoDup_nil_2. Qed.

Lemma array_from_set_append_fresh (l : list string) (x : string) :
  NoDup l -> x ∉ l -> array_from_set (l ++ [x]) = l ++ [x].
Proof.
  intros Hl Hx. unfold array_from_set. rewrite (setAdd_fold_fresh [] (l ++ [x])); [done|]. simpl.
  apply NoDup_app. split; [done|]. split; [set_solver|apply NoDup_singleton].
Qed.

End SetFromArray.

Section RemoveId.

Lemma filter_ne_notin (l : list string) (x : string) :
  x ∉ l -> filter (fun y => y ≠ x) l = l.
Proof.
  induction l as [|y l IH]; intros Hx; [done|].
  rewrite filter_cons, decide_True by set_solver. rewrite IH; set_solver.
Qed.

Lemma filter_ne_elem (l : list string) (x y : string) :
  y ∈ filter (fun z => z ≠ x) l <-> y ≠ x /\ y ∈ l.
Proof. by rewrite list_elem_of_filter. Qed.

End RemoveId.

(* ------------------------------------------------------------------ *)
(* C4: updateTask never touches the index                               *)
(* ------------------------------------------------------------------ *)

(** C4: for every identifier and partial argument, [updateTask] leaves
    [tasksByStatus] (and the lane list) unchanged, also when the partial
    carries a new [status]; the task map gets the merged record with the
    refreshed [updatedAt], or is unchanged for an unknown identifier. *)
Theorem updateTask_index_frame (id : string) (taskData : PartialTask.t) (now : string)
    (s : Store) :
  tasksByStatus (updateTask id taskData now s) = tasksByStatus s /\
  swimLanes (updateTask id taskData now s) = swimLanes s /\
  tasks (updateTask id taskData now s) =
    match tasks s !! id with
    | Some task => <[id := mergeTask task taskData now]> (tasks s)
    | None => tasks s
    end.
Proof. unfold updateTask. destruct (tasks s !! id); auto. Qed.

(* ------------------------------------------------------------------ *)
(* C7: reorderTasks replaces one entry wholesale                        *)
(* ------------------------------------------------------------------ *)

(** C7: [reorderTasks L newSeq] sets lane [L]'s entry to exactly [newSeq],
    whatever it held before and whether or not [newSeq] is a permutation of
    it; the task map, the lane list and every other entry are unchanged. *)
Theorem reorderTasks_sets_entry (status : string) (newOrder : list string) (s : Store) :
  tasksByStatus (reorderTasks status newOrder s) !! status = Some newOrder /\
  (forall l, l <> status ->
     tasksByStatus (reorderTasks status newOrder s) !! l = tasksByStatus s !! l) /\
  tasks (reorderTasks status newOrder s) = tasks s /\
  swimLanes (reorderTasks status newOrder s) = swimLanes s.
Proof.
  unfold reorderTasks; simpl. split; [apply lookup_insert_eq|].
  split; [|done]. intros l Hl. by apply lookup_insert_ne.
Qed.

(* ------------------------------------------------------------------ *)
(* C8: unknown identifiers                                              *)
(* ------------------------------------------------------------------ *)

(** C8: for an identifier absent from the task map, [updateTask],
    [deleteTask] and [moveTask] return the store unchanged (task map, index
    and lane list). *)
Theorem unknown_id_noop (id : string) (taskData : PartialTask.t)
    (newStatus now : string) (s : Store) :
  tasks s !! id = None ->
  updateTask id taskData now s = s /\ deleteTask id s = s /\
  moveTask id newStatus now s = s.
Proof.
  intros H. unfold updateTask, deleteTask, moveTask. rewrite H. auto.
Qed.

Lemma unknown_id_noop_witness :
  tasks initialStore !! "t9" = None /\
  updateTask "t9" (PartialTask.with_status "done") "T1" initialStore = initialStore /\
  deleteTask "t9" initialStore = initialStore /\
  moveTask "t9" "done" "T1" initialStore = initialStore.
Proof.
  split; [reflexivity|]. apply (unknown_id_noop "t9"). reflexivity.
Defined.

(* ------------------------------------------------------------------ *)
(* C2: moveTask                                                         *)
(* ------------------------------------------------------------------ *)

(** C2: [moveTask taskId newStatus] returns the store unchanged when the
    task is missing or already has status [newStatus]; otherwise the task
    gets status [newStatus] and [updatedAt = now], [taskId] is filtered out
    of the old lane's entry, and the new lane's entry becomes the
    de-duplicated [entry ++ [taskId]] (exactly [entry ++ [taskId]] when the
    entry has no duplicate and lacks [taskId]); no other entry and not the
    lane list change. On the spec's example, adding "Fix bug" to "todo" then
    moving it to "done" gives [todo = []], [done = [newId]] and status
    "done". *)
Theorem moveTask_spec (taskId newStatus now : string) (s : Store) :
  (tasks s !! taskId = None -> moveTask taskId newStatus now s = s) /\
  (forall task, tasks s !! taskId = Some task -> Task.status task = newStatus ->
     moveTask taskId newStatus now s = s) /\
  (forall task, tasks s !! taskId = Some task -> Task.status task <> newStatus ->
     let s' := moveTask taskId newStatus now s in
     tasks s' = <[taskId := mergeTask task (PartialTask.with_status newStatus) now]> (tasks s) /\
     tasksByStatus s' !! Task.status task =
       Some (filter (fun id => id ≠ taskId) (laneEntry s (Task.status task))) /\
     tasksByStatus s' !! newStatus = Some (array_from_set (laneEntry s newStatus ++ [taskId])) /\
     (forall l, l <> Task.status task -> l <> newStatus ->
        tasksByStatus s' !! l = tasksByStatus s !! l) /\
     swimLanes s' = swimLanes s) /\
  (forall l : list string, NoDup l -> taskId ∉ l ->
     array_from_set (l ++ [taskId]) = l ++ [taskId]) /\
  (let s1 := fst (addTask "t1" "T0" (fixBug "todo") initialStore) in
   let s2 := moveTask "t1" "done" "T1" s1 in
   map_size (tasks s1) = 1 /\ tasksByStatus s1 !! "todo" = Some ["t1"] /\
   tasksByStatus s2 !! "todo" = Some [] /\ tasksByStatus s2 !! "done" = Some ["t1"] /\
   (Task.status <$> tasks s2 !! "t1") = Some "done").
Proof.
  split; [intros H; unfold moveTask; by rewrite H|].
  split; [intros task H Hs; unfold moveTask; rewrite H; by rewrite decide_True|].
  split.
  - intros task H Hs. unfold moveTask. rewrite H, decide_False by done. simpl.
    split; [destruct task; reflexivity|].
    split; [rewrite lookup_insert_ne by congruence; apply lookup_insert_eq|].
    split; [apply lookup_insert_eq|].
    split; [|done]. intros l Hl1 Hl2.
    rewrite !lookup_insert_ne by congruence. done.
  - split; [intros l Hnd Hnin; by apply array_from_set_append_fresh|]. vm_compute. repeat split.
Qed.

(* ------------------------------------------------------------------ *)
(* C3: addTask then deleteTask                                          *)
(* ------------------------------------------------------------------ *)

(** The starting state of the C3 counterexample: the default lanes, no
    task and no index entry yet. *)
Definition bareStore : Store := mkStore ∅ ∅ DEFAULT_SWIMLANES.

(** C3 (counterexample): from a state where lane "todo" has no index entry,
    adding a task to "todo" and deleting it leaves the entry [todo = []]:
    the index differs from its state before the add. *)
Lemma addTask_deleteTask_leaves_empty_entry :
  let s1 := fst (addTask "t1" "T0" (fixBug "todo") bareStore) in
  tasksByStatus (deleteTask "t1" s1) !! "todo" = Some [] /\
  tasksByStatus bareStore !! "todo" = None /\
  tasksByStatus (deleteTask "t1" s1) <> tasksByStatus bareStore.
Proof.
  split; [reflexivity|]. split; [reflexivity|].
  intros H. apply (f_equal (lookup "todo")) in H. vm_compute in H. discriminate.
Qed.

(** C3 (amended): when the fresh identifier [id] is not a key of the task
    map and not in the target lane's entry, and that lane (a non-empty
    status) already has an index entry, [addTask] followed by [deleteTask]
    on [id] restores the task map and the index exactly. *)
Theorem addTask_deleteTask_restores (id now : string) (taskData : TaskData.t)
    (s : Store) (entry : list string) :
  tasks s !! id = None ->
  tasksByStatus s !! TaskData.status taskData = Some entry ->
  id ∉ entry ->
  TaskData.status taskData <> "" ->
  tasks (deleteTask id (fst (addTask id now taskData s))) = tasks s /\
  tasksByStatus (deleteTask id (fst (addTask id now taskData s))) = tasksByStatus s.
Proof.
  intros Hid Hentry Hfresh Hne. unfold deleteTask, addTask, laneEntry. simpl.
  rewrite lookup_insert_eq. simpl.
  destruct (String.eqb_spec (TaskData.status taskData) ""); [done|]. simpl.
  split; [by apply delete_insert_id|].
  rewrite lookup_insert_eq. simpl. rewrite Hentry. simpl.
  rewrite filter_app, filter_ne_notin by done.
  rewrite filter_cons, decide_False by (intros H; by apply H). rewrite app_nil_r.
  rewrite insert_insert_eq. by apply insert_id.
Qed.

Lemma addTask_deleteTask_restores_witness :
  let s := initialStore in
  tasks s !! "t1" = None /\ tasksByStatus s !! "todo" = Some [] /\
  tasks (deleteTask "t1" (fst (addTask "t1" "T0" (fixBug "todo") s))) = tasks s /\
  tasksByStatus (deleteTask "t1" (fst (addTask "t1" "T0" (fixBug "todo") s))) = tasksByStatus s.
Proof.
  split; [reflexivity|]. split; [reflexivity|].
  apply (addTask_deleteTask_restores "t1" "T0" (fixBug "todo") initialStore []);
    [reflexivity | reflexivity | set_solver | discriminate].
Defined.

(** The early return [if (!status) return;] of [deleteTask] also fires for
    a task whose status is the empty string: such a task is not deleted. *)
Example deleteTask_empty_status :
  let s1 := fst (addTask "t1" "T0" (fixBug "") initialStore) in
  deleteTask "t1" s1 = s1.
Proof. reflexivity. Qed.

(* ------------------------------------------------------------------ *)
(* The lane map of reorderSwimLanes                                     *)
(* ------------------------------------------------------------------ *)

Section LaneMap.

Let step := fun (acc : gmap string SwimLane.t) (lane : SwimLane.t) =>
  <[SwimLane.id lane := lane]> acc.

Lemma laneMap_fold_notin (acc : gmap string SwimLane.t) (lanes : list SwimLane.t) (x : string) :
  x ∉ SwimLane.id <$> lanes -> foldl step acc lanes !! x = acc !! x.
Proof.
  revert acc. induction lanes as [|lane lanes IH]; intros acc Hx; [done|].
  rewrite fmap_cons in Hx. simpl. rewrite IH by set_solver.
  apply lookup_insert_ne. set_solver.
Qed.

Lemma laneMap_fold_Some (acc : gmap string SwimLane.t) (lanes : list SwimLane.t)
    (x : string) (l : SwimLane.t) :
  foldl step acc lanes !! x = Some l ->
  (l ∈ lanes /\ SwimLane.id l = x) \/ acc !! x = Some l.
Proof.
  revert acc. induction lanes as [|lane lanes IH]; intros acc H; simpl in H; [by right|].
  destruct (IH _ H) as [[Hin Hid]|Hacc]; [left; set_solver|].
  unfold step in Hacc. rewrite lookup_insert in Hacc. case_decide as Heq.
  - simplify_eq. left. set_solver.
  - by right.
Qed.

Lemma laneMap_fold_in (acc : gmap string SwimLane.t) (lanes : list SwimLane.t) (x : string) :
  x ∈ SwimLane.id <$> lanes -> is_Some (foldl step acc lanes !! x).
Proof.
  revert acc. induction lanes as [|lane lanes IH]; intros acc Hx; [set_solver|].
  rewrite fmap_cons, elem_of_cons in Hx. simpl.
  destruct (decide (x ∈ SwimLane.id <$> lanes)) as [Hin|Hnin]; [by apply IH|].
  destruct Hx as [->|Hx]; [|done].
  rewrite laneMap_fold_notin by done. unfold step. rewrite lookup_insert_eq. eauto.
Qed.

Lemma laneMap_fold_unique (acc : gmap string SwimLane.t) (lanes : list SwimLane.t)
    (l : SwimLane.t) :
  NoDup (SwimLane.id <$> lanes) -> l ∈ lanes ->
  foldl step acc lanes !! SwimLane.id l = Some l.
Proof.
  revert acc. induction lanes as [|lane lanes IH]; intros acc Hnd Hl; [set_solver|].
  rewrite fmap_cons in Hnd. apply NoDup_cons in Hnd as [Hnotin Hnd]. simpl.
  apply elem_of_cons in Hl as [->|Hl].
  - rewrite laneMap_fold_notin by done. unfold step. apply lookup_insert_eq.
  - by apply IH.
Qed.

Lemma laneMap_Some (lanes : list SwimLane.t) (x : string) (l : SwimLane.t) :
  laneMap lanes !! x = Some l -> l ∈ lanes /\ SwimLane.id l = x.
Proof.
  intros H. destruct (laneMap_fold_Some ∅ lanes x l H) as [?|Hx]; [done|].
  by rewrite lookup_empty in Hx.
Qed.

Lemma laneMap_None (lanes : list SwimLane.t) (x : string) :
  laneMap lanes !! x = None <-> x ∉ SwimLane.id <$> lanes.
Proof.
  split.
  - intros H Hin. destruct (laneMap_fold_in ∅ lanes x Hin) as [l Hl].
    unfold laneMap in H. unfold step in Hl. congruence.
  - intros H. unfold laneMap. rewrite (laneMap_fold_notin ∅ lanes x H). apply lookup_empty.
Qed.

Lemma laneMap_unique (lanes : list SwimLane.t) (l : SwimLane.t) :
  NoDup (SwimLane.id <$> lanes) -> l ∈ lanes -> laneMap lanes !! SwimLane.id l = Some l.
Proof. apply laneMap_fold_unique. Qed.

End LaneMap.

Lemma omap_cons_eq {A B} (f : A -> option B) (x : A) (l : list A) :
  omap f (x :: l) = match f x with Some y => y :: omap f l | None => omap f l end.
Proof. reflexivity. Qed.

Lemma reorder_ids (lanes : list SwimLane.t) (newOrder : list string) :
  SwimLane.id <$> omap (fun id => laneMap lanes !! id) newOrder =
  filter (fun x => x ∈ SwimLane.id <$> lanes) newOrder.
Proof.
  induction newOrder as [|x newOrder IH]; [done|].
  rewrite omap_cons_eq, filter_cons. destruct (laneMap lanes !! x) as [l|] eqn:E.
  - destruct (laneMap_Some _ _ _ E) as [Hin Hid].
    rewrite decide_True by (subst x; by apply list_elem_of_fmap_2).
    rewrite fmap_cons, IH. by rewrite Hid.
  - apply laneMap_None in E. by rewrite decide_False.
Qed.

Lemma reorder_elem (lanes : list SwimLane.t) (newOrder : list string) (l : SwimLane.t) :
  l ∈ omap (fun id => laneMap lanes !! id) newOrder <->
  exists x, x ∈ newOrder /\ laneMap lanes !! x = Some l.
Proof. apply list_elem_of_omap. Qed.

Lemma nodup_filter_count (P : string -> Prop) `{forall x, Decision (P x)} (l : list string) :
  (forall x, x ∈ l -> P x -> count_occ String.string_dec l x = 1) -> NoDup (filter P l).
Proof.
  induction l as [|a l IH]; intros Hc; [apply NoDup_nil_2|].
  assert (Hl : forall x, x ∈ l -> P x -> count_occ String.string_dec l x = 1).
  { intros x Hx HP. specialize (Hc x ltac:(set_solver) HP).
    destruct (String.string_dec a x) as [->|Hne].
    - rewrite count_occ_cons_eq in Hc by done. exfalso.
      apply list_elem_of_In, (count_occ_In String.string_dec) in Hx. lia.
    - by rewrite count_occ_cons_neq in Hc. }
  rewrite filter_cons. case_decide as HPa; [|by apply IH].
  apply NoDup_cons. split; [|by apply IH].
  rewrite list_elem_of_filter. intros [_ Ha].
  specialize (Hc a ltac:(set_solver) HPa). rewrite count_occ_cons_eq in Hc by done.
  apply list_elem_of_In, (count_occ_In String.string_dec) in Ha. lia.
Qed.

(* ------------------------------------------------------------------ *)
(* C9, C10: reorderSwimLanes                                            *)
(* ------------------------------------------------------------------ *)

(** C10: for every [newOrder], the lane list after [reorderSwimLanes] holds
    the current lane records whose identifiers occur in [newOrder], in
    [newOrder]'s order (identifiers unknown to the lane list dropped); a
    current lane whose identifier is not in [newOrder] is gone from the
    list, while the task map and the whole index (its entry included) stay
    as they were. *)
Theorem reorderSwimLanes_result (newOrder : list string) (s : Store) :
  SwimLane.id <$> swimLanes (reorderSwimLanes newOrder s) =
    filter (fun x => x ∈ SwimLane.id <$> swimLanes s) newOrder /\
  (forall lane, lane ∈ swimLanes (reorderSwimLanes newOrder s) -> lane ∈ swimLanes s) /\
  (forall lane, lane ∈ swimLanes s -> SwimLane.id lane ∉ newOrder ->
     lane ∉ swimLanes (reorderSwimLanes newOrder s)) /\
  tasks (reorderSwimLanes newOrder s) = tasks s /\
  tasksByStatus (reorderSwimLanes newOrder s) = tasksByStatus s.
Proof.
  unfold reorderSwimLanes; simpl. split; [apply reorder_ids|].
  split.
  - intros lane (x & _ & Hx)%reorder_elem. by apply (laneMap_Some _ x).
  - split; [|done]. intros lane _ Hnot (x & Hx & Hl)%reorder_elem.
    apply laneMap_Some in Hl as [_ <-]. done.
Qed.

(** C9: when the current lane identifiers are distinct and each occurs
    exactly once in [newOrder] (which may hold further identifiers),
    [reorderSwimLanes newOrder] leaves a permutation of the current lane
    records, ordered as their identifiers are in [newOrder], with the
    unknown identifiers dropped. *)
Theorem reorderSwimLanes_full_order (newOrder : list string) (s : Store) :
  NoDup (SwimLane.id <$> swimLanes s) ->
  (forall lane, lane ∈ swimLanes s -> count_occ String.string_dec newOrder (SwimLane.id lane) = 1) ->
  swimLanes (reorderSwimLanes newOrder s) ≡ₚ swimLanes s /\
  SwimLane.id <$> swimLanes (reorderSwimLanes newOrder s) =
    filter (fun x => x ∈ SwimLane.id <$> swimLanes s) newOrder.
Proof.
  intros Hnd Hfull. unfold reorderSwimLanes; simpl.
  split; [|apply reorder_ids].
  apply NoDup_Permutation.
  - apply (NoDup_fmap_1 SwimLane.id). rewrite reorder_ids.
    apply nodup_filter_count. intros x _ Hx.
    apply list_elem_of_fmap in Hx as (lane & -> & Hl). by apply Hfull.
  - by apply (NoDup_fmap_1 SwimLane.id).
  - intros lane. rewrite reorder_elem. split.
    + intros (x & _ & Hx). by apply (laneMap_Some _ x).
    + intros Hl. exists (SwimLane.id lane). split; [|by apply laneMap_unique].
      apply list_elem_of_In, (count_occ_In String.string_dec). rewrite Hfull by done. lia.
Qed.

Lemma reorderSwimLanes_full_order_witness :
  let newOrder := ["done"; "x"; "todo"; "testing"; "planning"; "in-progress"] in
  NoDup (SwimLane.id <$> swimLanes initialStore) /\
  swimLanes (reorderSwimLanes newOrder initialStore) ≡ₚ swimLanes initialStore /\
  SwimLane.id <$> swimLanes (reorderSwimLanes newOrder initialStore) =
    filter (fun x => x ∈ SwimLane.id <$> swimLanes initialStore) newOrder.
Proof.
  assert (Hnd : NoDup (SwimLane.id <$> swimLanes initialStore)) by (apply (bool_decide_unpack _); vm_compute; exact I).
  split; [exact Hnd|].
  apply (reorderSwimLanes_full_order _ initialStore Hnd).
  apply Forall_forall. vm_compute. repeat constructor.
Defined.

(* ------------------------------------------------------------------ *)
(* deleteSwimLane                                                       *)
(* ------------------------------------------------------------------ *)

Lemma merge_with_status_idem (task : Task.t) (st now : string) :
  mergeTask (mergeTask task (PartialTask.with_status st) now) (PartialTask.with_status st) now =
  mergeTask task (PartialTask.with_status st) now.
Proof. by destruct task. Qed.

Lemma updateTask_lookup (a : string) (p : PartialTask.t) (now : string) (s : Store) (k : string) :
  tasks (updateTask a p now s) !! k =
  if decide (k = a) then (fun t => mergeTask t p now) <$> tasks s !! k else tasks s !! k.
Proof.
  unfold updateTask. destruct (tasks s !! a) as [t|] eqn:E; simpl;
    case_decide; subst; simplify_map_eq; done.
Qed.

Lemma updateTask_other_fields (a : string) (p : PartialTask.t) (now : string) (s : Store) :
  tasksByStatus (updateTask a p now s) = tasksByStatus s /\
  swimLanes (updateTask a p now s) = swimLanes s.
Proof. unfold updateTask. by destruct (tasks s !! a). Qed.

Section Reassign.
Variables (target now : string).

Let reassign := fun (st : Store) (taskId : string) =>
  updateTask taskId (PartialTask.with_status target) now st.

Lemma reassign_fold_other_fields (L : list string) (s : Store) :
  tasksByStatus (foldl reassign s L) = tasksByStatus s /\
  swimLanes (foldl reassign s L) = swimLanes s.
Proof.
  revert s. induction L as [|a L IH]; intros s; [done|]. simpl.
  destruct (IH (reassign s a)) as [-> ->]. apply updateTask_other_fields.
Qed.

Lemma reassign_fold_lookup (L : list string) (s : Store) (k : string) :
  tasks (foldl reassign s L) !! k =
  if decide (k ∈ L)
  then (fun t => mergeTask t (PartialTask.with_status target) now) <$> tasks s !! k
  else tasks s !! k.
Proof.
  revert s. induction L as [|a L IH]; intros s; cbn [foldl].
  - rewrite decide_False by set_solver. done.
  - rewrite IH. unfold reassign. rewrite updateTask_lookup.
    destruct (decide (k = a)) as [->|Hne].
    + rewrite (decide_True (P := a ∈ a :: L)) by set_solver.
      destruct (tasks s !! a) as [t|]; simpl; case_decide; simpl;
        rewrite ?merge_with_status_idem; done.
    + destruct (decide (k ∈ L)); [rewrite decide_True by set_solver|rewrite decide_False by set_solver]; done.
Qed.

End Reassign.

Lemma delete_fold_lookup (L : list string) (m : gmap string Task.t) (k : string) :
  foldl (fun m taskId => delete taskId m) m L !! k =
  if decide (k ∈ L) then None else m !! k.
Proof.
  revert m. induction L as [|a L IH]; intros m; cbn [foldl].
  - rewrite decide_False by set_solver. done.
  - rewrite IH. destruct (decide (k = a)) as [->|Hne].
    + rewrite (decide_True (P := a ∈ a :: L)) by set_solver.
      case_decide; [done|]. apply lookup_delete_eq.
    + rewrite lookup_delete_ne by congruence.
      destruct (decide (k ∈ L)); [rewrite decide_True by set_solver|rewrite decide_False by set_solver]; done.
Qed.

Lemma filter_lanes_head (lanes : list SwimLane.t) (id : string) (target : SwimLane.t)
    (rest : list SwimLane.t) :
  filter (fun lane => SwimLane.id lane ≠ id) lanes = target :: rest ->
  SwimLane.id target <> id.
Proof.
  intros H. assert (Ht : target ∈ filter (fun lane => SwimLane.id lane ≠ id) lanes)
    by (rewrite H; set_solver).
  apply list_elem_of_filter in Ht. tauto.
Qed.

Lemma filter_lanes_ids (lanes : list SwimLane.t) (id x : string) :
  x <> id -> x ∈ SwimLane.id <$> lanes ->
  x ∈ SwimLane.id <$> filter (fun lane => SwimLane.id lane ≠ id) lanes.
Proof.
  intros Hne (lane & -> & Hl)%list_elem_of_fmap.
  apply list_elem_of_fmap_2. by apply list_elem_of_filter.
Qed.

Section DeleteSwimLaneShape.
Variables (id now : string) (s : Store).

Let others := filter (fun lane => SwimLane.id lane ≠ id) (swimLanes s).

Lemma dsl_lanes : swimLanes (deleteSwimLane id now s) = others.
Proof.
  unfold deleteSwimLane, others. cbn zeta.
  destruct (laneEntry s id); [done|].
  destruct (filter _ (swimLanes s)) as [|target rest] eqn:F;
    cbn [swimLanes tasks tasksByStatus]; [by rewrite F|].
  by rewrite (proj2 (reassign_fold_other_fields _ _ _ _)), F.
Qed.

Lemma dsl_empty :
  laneEntry s id = [] ->
  tasks (deleteSwimLane id now s) = tasks s /\
  tasksByStatus (deleteSwimLane id now s) = delete id (tasksByStatus s).
Proof. intros E. unfold deleteSwimLane. cbn zeta. by rewrite E. Qed.

Lemma dsl_target (target : SwimLane.t) (rest : list SwimLane.t) :
  laneEntry s id <> [] -> others = target :: rest ->
  (forall k, tasks (deleteSwimLane id now s) !! k =
     if decide (k ∈ laneEntry s id)
     then (fun t => mergeTask t (PartialTask.with_status (SwimLane.id target)) now) <$> tasks s !! k
     else tasks s !! k) /\
  tasksByStatus (deleteSwimLane id now s) =
    <[SwimLane.id target := laneEntry s (SwimLane.id target) ++ laneEntry s id]>
      (delete id (tasksByStatus s)).
Proof.
  intros Hne F. pose proof (filter_lanes_head _ _ _ _ F) as Htid.
  unfold deleteSwimLane. cbn zeta. unfold others in F.
  destruct (laneEntry s id) as [|a tl] eqn:E; [done|]. rewrite F. cbn [swimLanes tasks tasksByStatus].
  split; [intros k; apply reassign_fold_lookup|].
  rewrite (proj1 (reassign_fold_other_fields _ _ _ _)).
  rewrite lookup_delete_ne by congruence. done.
Qed.

Lemma dsl_none :
  laneEntry s id <> [] -> others = [] ->
  (forall k, tasks (deleteSwimLane id now s) !! k =
     if decide (k ∈ laneEntry s id) then None else tasks s !! k) /\
  tasksByStatus (deleteSwimLane id now s) = delete id (tasksByStatus s).
Proof.
  intros Hne F. unfold deleteSwimLane. cbn zeta. unfold others in F.
  destruct (laneEntry s id) as [|a tl] eqn:E; [done|]. rewrite F. cbn [swimLanes tasks tasksByStatus].
  split; [intros k; apply delete_fold_lookup|done].
Qed.

End DeleteSwimLaneShape.

(* ------------------------------------------------------------------ *)
(* C6: deleteSwimLane                                                   *)
(* ------------------------------------------------------------------ *)

(** C6: [deleteSwimLane id] always removes the lane from the lane list and
    the lane's index entry. When another lane remains, the first remaining
    lane [target] gets the deleted entry appended to its own, and every
    task listed in the deleted entry gets status [target] (and a fresh
    [updatedAt]); other tasks and other entries are unchanged. When no other
    lane remains, the tasks listed in the deleted entry are removed from the
    task map. *)
Theorem deleteSwimLane_spec (id now : string) (s : Store) :
  swimLanes (deleteSwimLane id now s) =
    filter (fun lane => SwimLane.id lane ≠ id) (swimLanes s) /\
  tasksByStatus (deleteSwimLane id now s) !! id = None /\
  match filter (fun lane => SwimLane.id lane ≠ id) (swimLanes s) with
  | target :: _ =>
      laneEntry (deleteSwimLane id now s) (SwimLane.id target) =
        laneEntry s (SwimLane.id target) ++ laneEntry s id /\
      (forall l, l <> id -> l <> SwimLane.id target ->
         tasksByStatus (deleteSwimLane id now s) !! l = tasksByStatus s !! l) /\
      (forall k task, k ∈ laneEntry s id -> tasks s !! k = Some task ->
         tasks (deleteSwimLane id now s) !! k =
           Some (mergeTask task (PartialTask.with_status (SwimLane.id target)) now)) /\
      (forall k, k ∉ laneEntry s id -> tasks (deleteSwimLane id now s) !! k = tasks s !! k)
  | [] =>
      (forall k, k ∈ laneEntry s id -> tasks (deleteSwimLane id now s) !! k = None)
  end.
Proof.
  split; [apply dsl_lanes|].
  destruct (decide (laneEntry s id = [])) as [E|E].
  - destruct (dsl_empty id now s E) as [Ht Hi]. rewrite Hi, Ht.
    split; [apply lookup_delete_eq|].
    destruct (filter _ (swimLanes s)) as [|target rest] eqn:F.
    + rewrite E. set_solver.
    + pose proof (filter_lanes_head _ _ _ _ F) as Htid.
      rewrite E, app_nil_r. unfold laneEntry at 1. rewrite Hi.
      rewrite lookup_delete_ne by congruence.
      split; [done|]. split; [intros l Hl _; by apply lookup_delete_ne|].
      set_solver.
  - destruct (filter _ (swimLanes s)) as [|target rest] eqn:F.
    + destruct (dsl_none id now s E F) as [Ht Hi]. rewrite Hi.
      split; [apply lookup_delete_eq|]. intros k Hk. rewrite Ht. by rewrite decide_True.
    + pose proof (filter_lanes_head _ _ _ _ F) as Htid.
      destruct (dsl_target id now s target rest E F) as [Ht Hi]. rewrite Hi.
      split; [rewrite lookup_insert_ne by congruence; apply lookup_delete_eq|].
      split; [unfold laneEntry at 1; rewrite Hi; by rewrite lookup_insert_eq|].
      split; [intros l Hl1 Hl2; rewrite lookup_insert_ne by congruence;
              by apply lookup_delete_ne|].
      split.
      * intros k task Hk Htask. rewrite Ht, decide_True by done. by rewrite Htask.
      * intros k Hk. rewrite Ht. by rewrite decide_False.
Qed.

(* ------------------------------------------------------------------ *)
(* C5: statuses name existing lanes                                     *)
(* ------------------------------------------------------------------ *)

Lemma consistent_not_in_other (s : Store) (k : string) (task : Task.t) (l : string) :
  consistent s -> tasks s !! k = Some task -> k ∈ laneEntry s l -> Task.status task = l.
Proof.
  intros Hc Hk Hin. destruct (Hc k task Hk) as [_ Hother].
  destruct (decide (Task.status task = l)) as [|Hne]; [done|].
  exfalso. apply (Hother l); [congruence|done].
Qed.

(** C5 (counterexample): [addTask] does not check the status against the
    lane list: from the initial state (no task, default lanes) adding a task
    with status "nowhere" leaves a task whose status names no lane. *)
Lemma addTask_status_not_a_lane :
  statuses_valid initialStore /\
  ~ statuses_valid (fst (addTask "t1" "T0" (fixBug "nowhere") initialStore)).
Proof.
  split.
  - intros k task Hk. vm_compute in Hk. discriminate.
  - intros H. specialize (H "t1" (snd (addTask "t1" "T0" (fixBug "nowhere") initialStore))).
    assert (Hb : bool_decide ("nowhere" ∈ SwimLane.id <$> DEFAULT_SWIMLANES) = true).
    { apply bool_decide_eq_true. apply H. vm_compute. reflexivity. }
    vm_compute in Hb. discriminate.
Qed.

(** C5 (amended): the store does not enforce that statuses name lanes
    ([addTask], [updateTask] and [moveTask] take any status), but
    [deleteSwimLane] maintains it: from a state whose index is consistent
    with the tasks and whose task statuses all name lanes of the list, after
    [deleteSwimLane id] every task's status names a lane of the remaining
    list. *)
Theorem deleteSwimLane_keeps_statuses_valid (id now : string) (s : Store) :
  consistent s -> statuses_valid s -> statuses_valid (deleteSwimLane id now s).
Proof.
  intros Hc Hv k task' Hk. rewrite dsl_lanes.
  (* a task outside the deleted entry keeps a status other than [id] *)
  assert (Hkeep : forall task, tasks s !! k = Some task -> k ∉ laneEntry s id ->
            Task.status task ∈ SwimLane.id <$> filter (fun lane => SwimLane.id lane ≠ id) (swimLanes s)).
  { intros task Htask Hnot. apply filter_lanes_ids; [|by apply (Hv k)].
    intros Heq. destruct (Hc k task Htask) as [Hcount _]. rewrite Heq in Hcount.
    apply Hnot, list_elem_of_In, (count_occ_In String.string_dec). lia. }
  destruct (decide (laneEntry s id = [])) as [E|E].
  - destruct (dsl_empty id now s E) as [Ht _]. rewrite Ht in Hk.
    apply (Hkeep task' Hk). rewrite E. set_solver.
  - destruct (filter _ (swimLanes s)) as [|target rest] eqn:F.
    + destruct (dsl_none id now s E F) as [Ht _]. rewrite Ht in Hk.
      case_decide as Hin; [done|]. by apply Hkeep.
    + destruct (dsl_target id now s target rest E F) as [Ht _]. rewrite Ht in Hk.
      case_decide as Hin; [|by apply Hkeep].
      destruct (tasks s !! k) as [task|]; simpl in Hk; [|done]. injection Hk as <-.
      apply list_elem_of_fmap_2' with (x := target); [set_solver|by destruct task].
Qed.


(* ------------------------------------------------------------------ *)
(* Consistency of the index, operation by operation                     *)
(* ------------------------------------------------------------------ *)

Section Counting.

Abbreviation cnt l x := (count_occ String.string_dec l x).

Lemma cnt_notin (l : list string) (x : string) : x ∉ l -> cnt l x = 0.
Proof. intros H. apply count_occ_not_In. by rewrite <- list_elem_of_In. Qed.

Lemma cnt_pos_elem (l : list string) (x : string) : cnt l x = 1 -> x ∈ l.
Proof. intros H. apply list_elem_of_In, (count_occ_In String.string_dec). lia. Qed.

Lemma cnt_nodup (l : list string) (x : string) : NoDup l -> x ∈ l -> cnt l x = 1.
Proof.
  intros Hnd Hx. apply NoDup_ListNoDup in Hnd.
  apply (proj1 (NoDup_count_occ' String.string_dec l) Hnd). by apply list_elem_of_In.
Qed.

Lemma cnt_app_single (l : list string) (a x : string) :
  cnt (l ++ [a]) x = cnt l x + (if decide (a = x) then 1 else 0).
Proof.
  rewrite count_occ_app. simpl.
  destruct (String.string_dec a x), (decide (a = x)); congruence || lia.
Qed.

Lemma cnt_filter_ne (l : list string) (a x : string) :
  x <> a -> cnt (filter (fun y => y ≠ a) l) x = cnt l x.
Proof.
  intros Hne. induction l as [|y l IH]; [done|].
  rewrite filter_cons. case_decide as Hy.
  - simpl. destruct (String.string_dec y x); by rewrite IH.
  - assert (y = a) by tauto. subst y. simpl.
    destruct (String.string_dec a x); [congruence|done].
Qed.

End Counting.

Lemma entry_insert (m : gmap string (list string)) (a l : string) (v : list string) :
  default [] (<[a := v]> m !! l) = if decide (l = a) then v else default [] (m !! l).
Proof. rewrite lookup_insert. by repeat case_decide; subst. Qed.

Lemma entry_delete (m : gmap string (list string)) (a l : string) :
  default [] (delete a m !! l) = if decide (l = a) then [] else default [] (m !! l).
Proof. rewrite lookup_delete. by repeat case_decide; subst. Qed.

(** Two stores with the same task map and the same entries (an absent entry
    counting as [[]]) are consistent together. *)
Lemma consistent_ext (s s' : Store) :
  tasks s' = tasks s -> (forall l, laneEntry s' l = laneEntry s l) ->
  consistent s -> consistent s'.
Proof.
  intros Ht He Hc k task Hk. rewrite Ht in Hk.
  rewrite !He. destruct (Hc k task Hk) as [H1 H2]. split; [done|].
  intros l Hl. rewrite He. by apply H2.
Qed.

Lemma ensureLaneEntries_entry (s : Store) (l : string) :
  laneEntry (ensureLaneEntries s) l = laneEntry s l.
Proof.
  unfold ensureLaneEntries, laneEntry. cbn [tasksByStatus].
  generalize (tasksByStatus s). induction (swimLanes s) as [|lane lanes IH]; intros m; [done|].
  cbn [foldl]. rewrite IH. destruct (m !! SwimLane.id lane) eqn:E; [done|].
  rewrite entry_insert. case_decide; subst; by rewrite ?E.
Qed.

Lemma ensureLaneEntries_consistent (s : Store) :
  consistent s -> consistent (ensureLaneEntries s).
Proof. apply consistent_ext; [done|apply ensureLaneEntries_entry]. Qed.

Lemma addTask_consistent (id now : string) (d : TaskData.t) (s : Store) :
  consistent s -> tasks s !! id = None -> (forall l, id ∉ laneEntry s l) ->
  consistent (fst (addTask id now d s)).
Proof.
  intros Hc Hid Hfresh.
  set (st := TaskData.status d).
  assert (He : forall l, laneEntry (fst (addTask id now d s)) l =
            if decide (l = st) then laneEntry s st ++ [id] else laneEntry s l).
  { intros l. unfold laneEntry. cbn. apply entry_insert. }
  intros k task Hk. setoid_rewrite He. cbn [addTask fst tasks] in Hk.
  destruct (decide (k = id)) as [->|Hne].
  - rewrite lookup_insert_eq in Hk. injection Hk as <-. cbn [Task.status].
    fold st. rewrite decide_True by done. rewrite cnt_app_single, decide_True by done.
    rewrite cnt_notin by apply Hfresh. split; [done|].
    intros l Hl. rewrite decide_False by done. apply Hfresh.
  - rewrite lookup_insert_ne in Hk by congruence.
    destruct (Hc k task Hk) as [H1 H2]. split.
    + case_decide as Hs; [|done]. rewrite Hs in H1.
      rewrite cnt_app_single, decide_False by congruence. lia.
    + intros l Hl. case_decide as Hs; [|by apply H2].
      subst l. intros Hin%elem_of_app. destruct Hin as [Hin|Hin]; [|set_solver].
      by apply (H2 st).
Qed.

Lemma updateTask_consistent (id : string) (p : PartialTask.t) (now : string) (s : Store) :
  consistent s ->
  (forall task, tasks s !! id = Some task ->
     default (Task.status task) (PartialTask.status p) = Task.status task) ->
  consistent (updateTask id p now s).
Proof.
  intros Hc Hp. unfold updateTask.
  destruct (tasks s !! id) as [task|] eqn:E; [|done].
  intros k task' Hk. cbn [tasks] in Hk.
  assert (He : forall l, laneEntry (mkStore (<[id:=mergeTask task p now]> (tasks s))
                                            (tasksByStatus s) (swimLanes s)) l = laneEntry s l)
    by reflexivity.
  setoid_rewrite He.
  destruct (decide (k = id)) as [->|Hne].
  - rewrite lookup_insert_eq in Hk. injection Hk as <-.
    replace (Task.status (mergeTask task p now)) with (Task.status task)
      by (unfold mergeTask; cbn; symmetry; by apply Hp).
    by apply (Hc id).
  - rewrite lookup_insert_ne in Hk by congruence. by apply Hc.
Qed.

Lemma deleteTask_consistent (id : string) (s : Store) :
  consistent s -> consistent (deleteTask id s).
Proof.
  intros Hc. unfold deleteTask.
  destruct (tasks s !! id) as [t|] eqn:E; cbn [fmap option_fmap option_map]; [|done].
  destruct (String.eqb (Task.status t) "") eqn:Es; [done|].
  set (st := Task.status t).
  set (s' := mkStore _ _ _).
  assert (He : forall l, laneEntry s' l =
            if decide (l = st) then filter (fun taskId => taskId ≠ id) (laneEntry s st)
            else laneEntry s l).
  { intros l. unfold laneEntry at 1. cbn. apply entry_insert. }
  intros k task Hk. setoid_rewrite He. cbn [s' tasks] in Hk.
  destruct (decide (k = id)) as [->|Hne]; [by rewrite lookup_delete_eq in Hk|].
  rewrite lookup_delete_ne in Hk by congruence.
  destruct (Hc k task Hk) as [H1 H2]. split.
  - case_decide as Hs; [|done]. rewrite Hs in H1. by rewrite cnt_filter_ne.
  - intros l Hl. case_decide as Hs; [|by apply H2].
    rewrite list_elem_of_filter. intros [_ Hin]. subst l. by apply (H2 st).
Qed.

Lemma moveTask_consistent (taskId newStatus now : string) (s : Store) :
  consistent s -> consistent (moveTask taskId newStatus now s).
Proof.
  intros Hc. unfold moveTask.
  destruct (tasks s !! taskId) as [t|] eqn:E; [|done].
  case_decide as Hsame; [done|]. cbv zeta.
  set (old := Task.status t). fold old in Hsame.
  set (s' := mkStore _ _ _).
  assert (He : forall l, laneEntry s' l =
            if decide (l = newStatus) then array_from_set (laneEntry s newStatus ++ [taskId])
            else if decide (l = old) then filter (fun id => id ≠ taskId) (laneEntry s old)
            else laneEntry s l).
  { intros l. unfold laneEntry at 1. cbn. rewrite entry_insert. case_decide; [done|].
    apply entry_insert. }
  destruct (Hc taskId t E) as [Ht1 Ht2]. fold old in Ht1, Ht2.
  intros k task Hk. setoid_rewrite He. cbn [s' tasks] in Hk.
  destruct (decide (k = taskId)) as [->|Hne].
  - rewrite lookup_insert_eq in Hk. injection Hk as <-. cbn [Task.status].
    rewrite decide_True by done. split.
    + apply cnt_nodup; [apply array_from_set_NoDup|].
      rewrite array_from_set_elem. set_solver.
    + intros l Hl. rewrite decide_False by done. case_decide as Hlo.
      * rewrite list_elem_of_filter. tauto.
      * apply Ht2. done.
  - rewrite lookup_insert_ne in Hk by congruence.
    destruct (Hc k task Hk) as [H1 H2]. split.
    + case_decide as Hn.
      * rewrite Hn in H1. apply cnt_nodup; [apply array_from_set_NoDup|].
        rewrite array_from_set_elem. apply elem_of_app. left. by apply cnt_pos_elem.
      * case_decide as Ho; [|done]. rewrite Ho in H1. by rewrite cnt_filter_ne.
    + intros l Hl. case_decide as Hn.
      * subst l. rewrite array_from_set_elem, elem_of_app. intros [Hin|Hin].
        -- by apply (H2 newStatus).
        -- set_solver.
      * case_decide as Ho; [|by apply H2].
        subst l. rewrite list_elem_of_filter. intros [_ Hin]. by apply (H2 old).
Qed.

Lemma reorderTasks_consistent (status : string) (newOrder : list string) (s : Store) :
  consistent s -> newOrder ≡ₚ laneEntry s status ->
  consistent (reorderTasks status newOrder s).
Proof.
  intros Hc Hperm.
  assert (He : forall l, laneEntry (reorderTasks status newOrder s) l =
            if decide (l = status) then newOrder else laneEntry s l).
  { intros l. unfold laneEntry at 1. cbn. apply entry_insert. }
  intros k task Hk. setoid_rewrite He. cbn [reorderTasks tasks] in Hk.
  destruct (Hc k task Hk) as [H1 H2]. split.
  - case_decide as Hs; [|done]. rewrite Hs in H1.
    rewrite (proj1 (Permutation_count_occ String.string_dec newOrder (laneEntry s status)) Hperm).
    done.
  - intros l Hl. case_decide as Hs; [|by apply H2]. subst l. rewrite Hperm. by apply H2.
Qed.

Lemma addSwimLane_consistent (id name : string) (pick : nat) (s : Store) :
  consistent s -> laneEntry s id = [] -> consistent (addSwimLane id name pick s).
Proof.
  intros Hc Hid. apply (consistent_ext s); [done| |done].
  intros l. unfold laneEntry at 1. cbn. rewrite entry_insert.
  case_decide; [by subst|done].
Qed.

Lemma updateSwimLane_consistent (id : string) (u : PartialSwimLane.t) (s : Store) :
  consistent s -> consistent (updateSwimLane id u s).
Proof. apply consistent_ext; done. Qed.

Lemma reorderSwimLanes_consistent (newOrder : list string) (s : Store) :
  consistent s -> consistent (reorderSwimLanes newOrder s).
Proof. apply consistent_ext; done. Qed.

Lemma deleteSwimLane_consistent (id now : string) (s : Store) :
  consistent s -> consistent (deleteSwimLane id now s).
Proof.
  intros Hc.
  set (tl := laneEntry s id).
  (* a task outside the deleted entry has a status other than [id] *)
  assert (Hstat : forall k t, tasks s !! k = Some t -> k ∉ tl -> Task.status t <> id).
  { intros k t Hk Hnot Heq. destruct (Hc k t Hk) as [H1 _]. rewrite Heq in H1.
    by apply Hnot, cnt_pos_elem. }
  destruct (decide (tl = [])) as [E|E].
  - destruct (dsl_empty id now s E) as [Ht Hi].
    apply (consistent_ext s); [done| |done].
    intros l. unfold laneEntry at 1. rewrite Hi, entry_delete.
    case_decide; [subst l; symmetry; exact E|done].
  - destruct (filter (fun lane => SwimLane.id lane ≠ id) (swimLanes s)) as [|target rest] eqn:F.
    + destruct (dsl_none id now s E F) as [Ht Hi].
      assert (He : forall l, laneEntry (deleteSwimLane id now s) l =
                if decide (l = id) then [] else laneEntry s l).
      { intros l. unfold laneEntry at 1. rewrite Hi. apply entry_delete. }
      intros k task Hk. setoid_rewrite He. rewrite Ht in Hk.
      case_decide as Hin; [done|].
      pose proof (Hstat k task Hk Hin) as Hs.
      destruct (Hc k task Hk) as [H1 H2]. split.
      * by rewrite decide_False.
      * intros l Hl. case_decide; [set_solver|by apply H2].
    + pose proof (filter_lanes_head _ _ _ _ F) as Htid.
      destruct (dsl_target id now s target rest E F) as [Ht Hi].
      set (tg := SwimLane.id target) in *.
      assert (He : forall l, laneEntry (deleteSwimLane id now s) l =
                if decide (l = tg) then laneEntry s tg ++ tl
                else if decide (l = id) then [] else laneEntry s l).
      { intros l. unfold laneEntry at 1. rewrite Hi, entry_insert.
        case_decide; [done|]. apply entry_delete. }
      intros k task' Hk. setoid_rewrite He. rewrite Ht in Hk. fold tl in Hk.
      case_decide as Hin.
      * destruct (tasks s !! k) as [t|] eqn:Et; cbn in Hk; [|done].
        injection Hk as <-. cbn [Task.status mergeTask PartialTask.with_status default].
        pose proof (consistent_not_in_other s k t id Hc Et Hin) as Hsid.
        destruct (Hc k t Et) as [H1 H2]. rewrite Hsid in H1, H2.
        rewrite decide_True by done. split.
        -- rewrite count_occ_app, (cnt_notin (laneEntry s tg)) by (apply H2; congruence).
           unfold tl. lia.
        -- intros l Hl. rewrite decide_False by done.
           case_decide; [set_solver|]. by apply H2.
      * pose proof (Hstat k task' Hk Hin) as Hs.
        destruct (Hc k task' Hk) as [H1 H2]. split.
        -- case_decide as Htg.
           ++ rewrite Htg in H1. rewrite count_occ_app, (cnt_notin tl) by done. lia.
           ++ by rewrite decide_False.
        -- intros l Hl. case_decide as Htg.
           ++ subst l. apply not_elem_of_app. split; [by apply H2|done].
           ++ case_decide; [set_solver|by apply H2].
Qed.

(** One step of [run] keeps the index consistent under the side conditions
    below: a fresh identifier for [addTask] (absent from the task map and
    from every entry) and for [addSwimLane] (no non-empty entry), an
    [updateTask] that leaves the status as it is, and a [reorderTasks] list
    that is a permutation of the lane's entry. *)
Definition admissible (o : op) (s : Store) : Prop :=
  match o with
  | OpAddTask id _ _ => tasks s !! id = None /\ forall l, id ∉ laneEntry s l
  | OpUpdateTask id p _ =>
      forall task, tasks s !! id = Some task ->
        default (Task.status task) (PartialTask.status p) = Task.status task
  | OpReorderTasks status newOrder => newOrder ≡ₚ laneEntry s status
  | OpAddSwimLane id _ _ => laneEntry s id = []
  | _ => True
  end.

Fixpoint admissible_run (ops : list op) (s : Store) : Prop :=
  match ops with
  | [] => True
  | o :: ops' => admissible o s /\ admissible_run ops' (run_op o s)
  end.

Lemma run_op_consistent (o : op) (s : Store) :
  consistent s -> admissible o s -> consistent (run_op o s).
Proof.
  intros Hc Ha. destruct o; cbn [run_op admissible] in *.
  - destruct Ha as [H1 H2]. by apply addTask_consistent.
  - by apply updateTask_consistent.
  - by apply deleteTask_consistent.
  - by apply moveTask_consistent.
  - by apply reorderTasks_consistent.
  - by apply ensureLaneEntries_consistent, addSwimLane_consistent.
  - by apply ensureLaneEntries_consistent, updateSwimLane_consistent.
  - by apply ensureLaneEntries_consistent, deleteSwimLane_consistent.
  - by apply ensureLaneEntries_consistent, reorderSwimLanes_consistent.
Qed.

(* ------------------------------------------------------------------ *)
(* A store with one task                                                *)
(* ------------------------------------------------------------------ *)

Lemma initialStore_entries (l : string) : laneEntry initialStore l = [].
Proof.
  assert (H : map_Forall (fun _ v => v = []) (tasksByStatus initialStore))
    by (apply (bool_decide_unpack _); vm_compute; exact I).
  unfold laneEntry. destruct (tasksByStatus initialStore !! l) as [v|] eqn:E; [|done].
  simpl. exact (H l v E).
Qed.

Lemma initialStore_consistent : consistent initialStore.
Proof. intros k task Hk. cbn in Hk. by rewrite lookup_empty in Hk. Qed.

(** "Fix bug" added to lane "todo" of the initial store. *)
Definition oneTaskStore : Store := fst (addTask "t1" "T0" (fixBug "todo") initialStore).

(** A second task "t2" added to lane "todo". *)
Definition twoTaskStore : Store :=
  fst (addTask "t2" "T0" (fixBug "todo") oneTaskStore).

Lemma oneTaskStore_consistent : consistent oneTaskStore.
Proof.
  apply addTask_consistent; [apply initialStore_consistent|reflexivity|].
  intros l. rewrite initialStore_entries. set_solver.
Qed.

Lemma oneTaskStore_statuses_valid : statuses_valid oneTaskStore.
Proof.
  intros k task Hk. cbn in Hk. destruct (decide (k = "t1")) as [->|Hne].
  - rewrite lookup_insert_eq in Hk. injection Hk as <-.
    apply (bool_decide_unpack _). vm_compute. reflexivity.
  - rewrite lookup_insert_ne in Hk by congruence. by rewrite lookup_empty in Hk.
Qed.

Lemma deleteSwimLane_keeps_statuses_valid_witness :
  consistent oneTaskStore /\ statuses_valid oneTaskStore /\
  statuses_valid (deleteSwimLane "todo" "T1" oneTaskStore).
Proof.
  split; [exact oneTaskStore_consistent|].
  split; [exact oneTaskStore_statuses_valid|].
  apply deleteSwimLane_keeps_statuses_valid;
    [exact oneTaskStore_consistent|exact oneTaskStore_statuses_valid].
Defined.

(* ------------------------------------------------------------------ *)
(* C1: the index agrees with the task statuses                          *)
(* ------------------------------------------------------------------ *)

(** C1 (counterexample): [updateTask] with a new status changes the task
    record and not the index: from the consistent one-task store (task "t1"
    in "todo"), [updateTask "t1" {status: "done"}] leaves "t1" with status
    "done" and listed only under "todo". *)
Lemma updateTask_status_breaks_index :
  consistent oneTaskStore /\
  ~ consistent (run [OpUpdateTask "t1" (PartialTask.with_status "done") "T1"] oneTaskStore).
Proof.
  split; [exact oneTaskStore_consistent|]. intros H.
  destruct (H "t1" (mergeTask (snd (addTask "t1" "T0" (fixBug "todo") initialStore))
                               (PartialTask.with_status "done") "T1")) as [H1 _];
    [vm_compute; reflexivity|].
  vm_compute in H1. discriminate.
Qed.

(** C1 (amended): from a consistent store (every task's identifier occurs
    exactly once in the entry of its status and in no other entry), any
    sequence of operations keeps the store consistent provided each step
    is admissible: [addTask] and [addSwimLane] get fresh identifiers,
    [updateTask] does not change the status, and [reorderTasks] is given a
    permutation of the lane's entry. [updateTask] with a new status and
    [reorderTasks] with another list can break it. *)
Theorem run_consistent (ops : list op) (s : Store) :
  consistent s -> admissible_run ops s -> consistent (run ops s).
Proof.
  revert s. induction ops as [|o ops IH]; intros s Hc Ha; [done|].
  destruct Ha as [Ho Hrest]. cbn [run foldl].
  apply (IH (run_op o s)); [by apply run_op_consistent|done].
Qed.

Lemma run_consistent_witness :
  let ops := [OpMoveTask "t1" "done" "T1"; OpDeleteSwimLane "done" "T2";
              OpReorderTasks "todo" ["t1"]] in
  consistent oneTaskStore /\ admissible_run ops oneTaskStore /\
  consistent (run ops oneTaskStore).
Proof.
  cbv zeta.
  assert (Ha : admissible_run [OpMoveTask "t1" "done" "T1"; OpDeleteSwimLane "done" "T2";
              OpReorderTasks "todo" ["t1"]] oneTaskStore).
  { vm_compute. split; [exact I|]. split; [exact I|]. split; [|exact I]. reflexivity. }
  split; [exact oneTaskStore_consistent|]. split; [exact Ha|].
  apply run_consistent; [exact oneTaskStore_consistent|exact Ha].
Defined.

(* ------------------------------------------------------------------ *)
(* The lane-entry effect and the save guard                             *)
(* ------------------------------------------------------------------ *)

Lemma ensure_fold_lookup (lanes : list SwimLane.t) (m : gmap string (list string)) (k : string) :
  foldl (fun acc lane =>
           match acc !! SwimLane.id lane with
           | Some _ => acc
           | None => <[SwimLane.id lane := []]> acc
           end) m lanes !! k =
  match m !! k with
  | Some v => Some v
  | None => if decide (k ∈ SwimLane.id <$> lanes) then Some [] else None
  end.
Proof.
  revert m. induction lanes as [|lane lanes IH]; intros m; cbn [foldl].
  - destruct (m !! k); [done|]. rewrite decide_False; [done|set_solver].
  - rewrite IH, fmap_cons. destruct (m !! SwimLane.id lane) as [v|] eqn:Em.
    + destruct (m !! k) as [w|] eqn:Ek; [done|].
      assert (k <> SwimLane.id lane) by congruence.
      destruct (decide (k ∈ SwimLane.id <$> lanes));
        [rewrite decide_True by set_solver|rewrite decide_False by set_solver]; done.
    + destruct (decide (k = SwimLane.id lane)) as [->|Hne].
      * rewrite lookup_insert_eq, Em, decide_True by set_solver. done.
      * rewrite lookup_insert_ne by congruence.
        destruct (m !! k); [done|].
        destruct (decide (k ∈ SwimLane.id <$> lanes));
          [rewrite decide_True by set_solver|rewrite decide_False by set_solver]; done.
Qed.

Lemma ensure_lookup (s : Store) (k : string) :
  tasksByStatus (ensureLaneEntries s) !! k =
  match tasksByStatus s !! k with
  | Some v => Some v
  | None => if decide (k ∈ SwimLane.id <$> swimLanes s) then Some [] else None
  end.
Proof. apply ensure_fold_lookup. Qed.

(** The [useEffect] on [swimLanes] keeps every existing index entry as it
    is, gives each lane identifier without an entry the entry [[]], adds no
    other key, and leaves the tasks and the lane list untouched. *)
Theorem ensureLaneEntries_lookup (s : Store) :
  tasks (ensureLaneEntries s) = tasks s /\
  swimLanes (ensureLaneEntries s) = swimLanes s /\
  forall k, tasksByStatus (ensureLaneEntries s) !! k =
    match tasksByStatus s !! k with
    | Some v => Some v
    | None => if decide (k ∈ SwimLane.id <$> swimLanes s) then Some [] else None
    end.
Proof. split; [done|]. split; [done|]. apply ensure_lookup. Qed.

(** Running the lane-entry effect a second time changes nothing. *)
Theorem ensureLaneEntries_idem (s : Store) :
  ensureLaneEntries (ensureLaneEntries s) = ensureLaneEntries s.
Proof.
  assert (Hm : tasksByStatus (ensureLaneEntries (ensureLaneEntries s)) =
               tasksByStatus (ensureLaneEntries s)).
  { apply map_eq. intros k. rewrite (ensure_lookup (ensureLaneEntries s)).
    destruct (tasksByStatus (ensureLaneEntries s) !! k) eqn:E; [done|].
    rewrite ensure_lookup in E. cbn [swimLanes ensureLaneEntries].
    destruct (tasksByStatus s !! k); [done|]. by case_decide. }
  transitivity (mkStore (tasks s) (tasksByStatus (ensureLaneEntries s)) (swimLanes s));
    [|reflexivity].
  rewrite <- Hm. reflexivity.
Qed.

(** Once the lane-entry effect has run over a non-empty lane list, the
    guard of the effect saving the tasks holds, even when there is no
    task: the index is never empty. *)
Theorem saveTasksWrites_after_entries (s : Store) :
  swimLanes s <> [] -> saveTasksWrites (ensureLaneEntries s) = true.
Proof.
  intros Hl. destruct (swimLanes s) as [|lane lanes] eqn:E; [done|].
  unfold saveTasksWrites. apply orb_true_intro. right.
  apply Nat.ltb_lt. apply Nat.neq_0_lt_0. rewrite map_size_ne_0_lookup.
  exists (SwimLane.id lane). rewrite ensure_lookup, E.
  destruct (tasksByStatus s !! SwimLane.id lane); [done|].
  rewrite decide_True by set_solver. done.
Qed.

Lemma saveTasksWrites_after_entries_witness :
  mkStore ∅ ∅ DEFAULT_SWIMLANES <> mkStore ∅ ∅ [] /\
  saveTasksWrites (ensureLaneEntries (mkStore ∅ ∅ DEFAULT_SWIMLANES)) = true.
Proof.
  split; [discriminate|]. apply saveTasksWrites_after_entries. cbn. discriminate.
Defined.

(* ------------------------------------------------------------------ *)
(* Lane operations                                                      *)
(* ------------------------------------------------------------------ *)

(** [addSwimLane] appends one lane, with the given name and a colour of the
    palette whatever the random index, and sets the index entry of the new
    identifier to [[]] (replacing any entry under that key); the tasks and
    the other entries are unchanged. *)
Theorem addSwimLane_appends (id name : string) (pick : nat) (s : Store) :
  (exists c, c ∈ colors /\ swimLanes (addSwimLane id name pick s) = swimLanes s ++ [SwimLane.mk id name c]) /\
  tasksByStatus (addSwimLane id name pick s) !! id = Some [] /\
  (forall k, k <> id -> tasksByStatus (addSwimLane id name pick s) !! k = tasksByStatus s !! k) /\
  tasks (addSwimLane id name pick s) = tasks s.
Proof.
  unfold addSwimLane. cbn [swimLanes tasksByStatus tasks]. split; [|split; [|split]].
  - eexists. split; [|reflexivity]. apply list_elem_of_In, nth_In.
    apply Nat.mod_upper_bound. discriminate.
  - apply lookup_insert_eq.
  - intros k Hk. by apply lookup_insert_ne.
  - done.
Qed.

(** [handleEditLane] of the lane manager calls [updateSwimLane] with
    [{ name }] only: the lane identifiers and colours stay as they are, the
    lanes with that identifier get the new name, the others keep theirs. *)
Theorem updateSwimLane_rename (id n : string) (s : Store) :
  let s' := updateSwimLane id (PartialSwimLane.mk None (Some n) None) s in
  SwimLane.id <$> swimLanes s' = SwimLane.id <$> swimLanes s /\
  SwimLane.color <$> swimLanes s' = SwimLane.color <$> swimLanes s /\
  SwimLane.name <$> swimLanes s' =
    (fun lane => if decide (SwimLane.id lane = id) then n else SwimLane.name lane) <$> swimLanes s /\
  tasks s' = tasks s /\ tasksByStatus s' = tasksByStatus s.
Proof.
  cbv zeta. unfold updateSwimLane. cbn [swimLanes tasks tasksByStatus].
  split; [|split; [|split; [|split]]]; try done;
    induction (swimLanes s) as [|lane lanes IH]; try done; cbn [map fmap list_fmap];
    rewrite <- ?IH; case_decide; done.
Qed.

(** [updateSwimLane] with an identifier no lane has changes nothing. *)
Theorem updateSwimLane_unknown_noop (id : string) (u : PartialSwimLane.t) (s : Store) :
  id ∉ SwimLane.id <$> swimLanes s -> updateSwimLane id u s = s.
Proof.
  intros Hid. destruct s as [t m lanes]. unfold updateSwimLane. cbn [swimLanes tasks tasksByStatus] in *.
  f_equal. induction lanes as [|lane lanes IH]; [done|].
  rewrite fmap_cons in Hid. cbn [map]. rewrite decide_False by set_solver.
  rewrite IH by set_solver. done.
Qed.

Lemma updateSwimLane_unknown_noop_witness :
  ("x" ∉ SwimLane.id <$> swimLanes initialStore) /\
  updateSwimLane "x" (PartialSwimLane.mk None (Some "New") None) initialStore = initialStore.
Proof.
  assert (H : "x" ∉ SwimLane.id <$> swimLanes initialStore)
    by (apply (bool_decide_unpack _); vm_compute; exact I).
  split; [exact H|]. by apply updateSwimLane_unknown_noop.
Defined.

(* ------------------------------------------------------------------ *)
(* Task operations                                                      *)
(* ------------------------------------------------------------------ *)



(** From a consistent store, [deleteTask] of a task with a non-empty
    status removes it from the task map and its identifier from every
    index entry; the other tasks are unchanged. *)
Theorem deleteTask_removes (id : string) (task : Task.t) (s : Store) :
  consistent s -> tasks s !! id = Some task -> Task.status task <> "" ->
  tasks (deleteTask id s) !! id = None /\
  (forall l, id ∉ laneEntry (deleteTask id s) l) /\
  (forall k, k <> id -> tasks (deleteTask id s) !! k = tasks s !! k).
Proof.
  intros Hc Ht Hs. destruct (Hc id task Ht) as [_ H2].
  unfold deleteTask. rewrite Ht. cbn [fmap option_fmap option_map].
  rewrite (proj2 (String.eqb_neq _ _) Hs). cbn [tasks].
  split; [apply lookup_delete_eq|]. split.
  - intros l. unfold laneEntry. cbn [tasksByStatus]. rewrite entry_insert.
    case_decide as Hl; [|by apply H2].
    rewrite list_elem_of_filter. tauto.
  - intros k Hk. by apply lookup_delete_ne.
Qed.

Lemma deleteTask_removes_witness :
  consistent oneTaskStore /\
  tasks oneTaskStore !! "t1" = Some (snd (addTask "t1" "T0" (fixBug "todo") initialStore)) /\
  tasks (deleteTask "t1" oneTaskStore) !! "t1" = None.
Proof.
  assert (Ht : tasks oneTaskStore !! "t1" = Some (snd (addTask "t1" "T0" (fixBug "todo") initialStore)))
    by reflexivity.
  split; [exact oneTaskStore_consistent|]. split; [exact Ht|].
  apply (deleteTask_removes "t1" _ oneTaskStore oneTaskStore_consistent Ht).
  cbn. discriminate.
Defined.

(** Repeating a [moveTask] to the same lane (at any later time) changes
    nothing: the task already has that status. *)
Theorem moveTask_idem (taskId newStatus now now' : string) (s : Store) :
  moveTask taskId newStatus now' (moveTask taskId newStatus now s) = moveTask taskId newStatus now s.
Proof.
  assert (Hstay : forall s0 n, (forall t, tasks s0 !! taskId = Some t -> Task.status t = newStatus) ->
            moveTask taskId newStatus n s0 = s0).
  { intros s0 n Hs0. unfold moveTask. destruct (tasks s0 !! taskId) as [t|] eqn:E0; [|done].
    cbv beta iota. rewrite decide_True; [done|]. by apply Hs0. }
  apply Hstay. intros t1 E1. unfold moveTask in E1.
  destruct (tasks s !! taskId) as [t|] eqn:E; [|congruence].
  destruct (decide (Task.status t = newStatus)) as [Hs|Hs]; [congruence|].
  cbn [tasks] in E1. rewrite lookup_insert_eq in E1. by injection E1 as <-.
Qed.

(* ------------------------------------------------------------------ *)
(* reorderSwimLanes applied twice                                       *)
(* ------------------------------------------------------------------ *)

Lemma laneMap_reorder (lanes : list SwimLane.t) (o : list string) (x : string) :
  x ∈ o -> laneMap (omap (fun id => laneMap lanes !! id) o) !! x = laneMap lanes !! x.
Proof.
  intros Hx. set (L' := omap (fun id => laneMap lanes !! id) o).
  assert (Hsub : forall l, laneMap L' !! x = Some l -> laneMap lanes !! x = Some l).
  { intros l Hl. apply laneMap_Some in Hl as [Hin Hid]. unfold L' in Hin.
    apply reorder_elem in Hin as (y & _ & Hy).
    pose proof (laneMap_Some _ _ _ Hy) as [_ Hy']. congruence. }
  destruct (laneMap L' !! x) as [l|] eqn:E; [symmetry; by apply Hsub|].
  destruct (laneMap lanes !! x) as [l|] eqn:E2; [|done].
  exfalso. apply laneMap_None in E. apply E.
  pose proof (laneMap_Some _ _ _ E2) as [_ Hid].
  apply list_elem_of_fmap. exists l. split; [done|].
  unfold L'. apply reorder_elem. eauto.
Qed.

Lemma omap_ext_in {A B} (f g : A -> option B) (l : list A) :
  (forall x, x ∈ l -> f x = g x) -> omap f l = omap g l.
Proof.
  induction l as [|a l IH]; intros H; [done|].
  rewrite !omap_cons_eq, (H a) by set_solver. rewrite IH by set_solver. done.
Qed.

(** Applying [reorderSwimLanes] twice with the same order gives the
    store of one application, whatever the order and the lanes. *)
Theorem reorderSwimLanes_idem (newOrder : list string) (s : Store) :
  reorderSwimLanes newOrder (reorderSwimLanes newOrder s) = reorderSwimLanes newOrder s.
Proof.
  unfold reorderSwimLanes. cbn [tasks tasksByStatus swimLanes]. f_equal.
  apply omap_ext_in. intros x Hx. by apply laneMap_reorder.
Qed.

(* ------------------------------------------------------------------ *)
(* Array helpers                                                        *)
(* ------------------------------------------------------------------ *)

Lemma arrayMove_perm {A} (xs : list A) (from to : nat) : arrayMove xs from to ≡ₚ xs.
Proof.
  unfold arrayMove. destruct (xs !! from) as [x|] eqn:E; [|done].
  rewrite <- (take_drop_middle xs from x E) at 5.
  rewrite <- Permutation_middle. cbn [app].
  rewrite <- Permutation_middle. by rewrite take_drop.
Qed.

Lemma findIndex_Some {A} (p : A -> bool) (xs : list A) (i : nat) :
  findIndex p xs = Some i -> exists x, xs !! i = Some x /\ p x = true.
Proof.
  revert i. induction xs as [|y xs IH]; intros i H; [done|]. cbn [findIndex] in H.
  destruct (p y) eqn:Ey.
  - injection H as <-. eauto.
  - destruct (findIndex p xs) as [j|] eqn:Ej; [|done]. injection H as <-. by apply IH.
Qed.

Lemma indexOf_Some (xs : list string) (x : string) (i : nat) :
  indexOf xs x = Some i -> xs !! i = Some x.
Proof.
  intros (y & Hy & Heq)%findIndex_Some. apply String.eqb_eq in Heq. by subst.
Qed.

(* ------------------------------------------------------------------ *)
(* The board's drag handler                                            *)
(* ------------------------------------------------------------------ *)

Lemma moveTask_lookup (taskId newStatus now : string) (s : Store) (k : string) :
  tasks (moveTask taskId newStatus now s) !! k =
  if decide (k = taskId)
  then (fun t => if decide (Task.status t = newStatus) then t else
          Task.mk (Task.id t) (Task.title t) (Task.description t) (Task.priority t)
            (Task.desiredDate t) (Task.actualDeliveryDate t) (Task.label t) newStatus
            (Task.assignee t) (Task.creator t) (Task.createdAt t) now) <$> tasks s !! k
  else tasks s !! k.
Proof.
  unfold moveTask. destruct (tasks s !! taskId) as [t|] eqn:E.
  - destruct (decide (Task.status t = newStatus)) as [Hs|Hs].
    + case_decide; subst; [by rewrite E; cbn; rewrite decide_True|done].
    + cbn [tasks]. case_decide; subst.
      * rewrite lookup_insert_eq, E. cbn. by rewrite decide_False.
      * by rewrite lookup_insert_ne.
  - case_decide; subst; [by rewrite E|done].
Qed.

Lemma moveTask_lanes (taskId newStatus now : string) (s : Store) :
  swimLanes (moveTask taskId newStatus now s) = swimLanes s.
Proof.
  unfold moveTask. destruct (tasks s !! taskId); [|done]. by case_decide.
Qed.

Lemma handleDragEnd_shape (a : string) (over : option string) (now : string) (s : Store) :
  fst (KanbanBoard.handleDragEnd a over now s) = s \/
  (exists target, fst (KanbanBoard.handleDragEnd a over now s) = moveTask a target now s) \/
  (exists st taskList i j, tasksByStatus s !! st = Some taskList /\
     fst (KanbanBoard.handleDragEnd a over now s) = reorderTasks st (arrayMove taskList i j) s).
Proof.
  unfold KanbanBoard.handleDragEnd. repeat case_match; cbn [fst]; eauto 10.
Qed.

(** Whatever is dragged where, the board's drag handler keeps the lane
    list, the set of task identifiers and every task other than the
    dragged one. *)
Theorem handleDragEnd_frame (a : string) (over : option string) (now : string) (s : Store) :
  swimLanes (fst (KanbanBoard.handleDragEnd a over now s)) = swimLanes s /\
  (forall k, is_Some (tasks (fst (KanbanBoard.handleDragEnd a over now s)) !! k) <->
             is_Some (tasks s !! k)) /\
  (forall k, k <> a -> tasks (fst (KanbanBoard.handleDragEnd a over now s)) !! k = tasks s !! k).
Proof.
  destruct (handleDragEnd_shape a over now s) as [->|[[target ->]|(st & l & i & j & _ & ->)]].
  - done.
  - split; [apply moveTask_lanes|]. split.
    + intros k. rewrite moveTask_lookup. case_decide; [|done].
      by rewrite fmap_is_Some.
    + intros k Hk. rewrite moveTask_lookup. by rewrite decide_False.
  - done.
Qed.

(** From a consistent store, the board's drag handler keeps the store
    consistent: a drop on another lane is a [moveTask], a drop on a task
    of the same lane reorders the lane's entry by [arrayMove], a
    permutation of it. *)
Theorem handleDragEnd_consistent (a : string) (over : option string) (now : string) (s : Store) :
  consistent s -> consistent (fst (KanbanBoard.handleDragEnd a over now s)).
Proof.
  intros Hc.
  destruct (handleDragEnd_shape a over now s) as [->|[[target ->]|(st & l & i & j & E & ->)]].
  - done.
  - by apply moveTask_consistent.
  - apply reorderTasks_consistent; [done|].
    unfold laneEntry. rewrite E. apply arrayMove_perm.
Qed.

Lemma handleDragEnd_consistent_witness :
  consistent oneTaskStore /\
  consistent (fst (KanbanBoard.handleDragEnd "t1" (Some "done") "T1" oneTaskStore)).
Proof.
  split; [exact oneTaskStore_consistent|].
  apply handleDragEnd_consistent. exact oneTaskStore_consistent.
Defined.

(** Dropping a task on a lane (a lane identifier other than the task's
    own identifier) gives the task that lane as its status. *)
Theorem handleDragEnd_drop_on_lane (a overId now : string) (task : Task.t) (s : Store) :
  a <> "" -> tasks s !! a = Some task -> overId <> a -> overId <> "" ->
  overId ∈ SwimLane.id <$> swimLanes s ->
  Task.status <$> tasks (fst (KanbanBoard.handleDragEnd a (Some overId) now s)) !! a = Some overId.
Proof.
  intros Ha Ht Hne Hempty Hlane. unfold KanbanBoard.handleDragEnd.
  rewrite (proj2 (String.eqb_neq a "") Ha), Ht, (proj2 (String.eqb_neq overId a) Hne).
  assert (Hex : existsb (fun lane => String.eqb (SwimLane.id lane) overId) (swimLanes s) = true).
  { apply existsb_exists. apply list_elem_of_fmap in Hlane as (lane & -> & Hl).
    exists lane. split; [by apply list_elem_of_In|]. apply String.eqb_refl. }
  rewrite Hex. cbv beta iota zeta. rewrite (proj2 (String.eqb_neq overId "") Hempty).
  destruct (String.eqb overId (Task.status task)) eqn:Es; cbn [negb].
  - apply String.eqb_eq in Es.
    assert (Hkeep : forall s', tasks s' = tasks s ->
              Task.status <$> tasks s' !! a = Some overId).
    { intros s' ->. rewrite Ht. cbn. by rewrite Es. }
    repeat case_match; cbn [fst]; apply Hkeep; done.
  - cbn [fst]. rewrite moveTask_lookup, decide_True by done. rewrite Ht. cbn.
    apply String.eqb_neq in Es. rewrite decide_False by congruence. done.
Qed.

Lemma handleDragEnd_drop_on_lane_witness :
  Task.status <$> tasks (fst (KanbanBoard.handleDragEnd "t1" (Some "done") "T1" oneTaskStore)) !! "t1"
    = Some "done".
Proof.
  apply (handleDragEnd_drop_on_lane _ _ _ (snd (addTask "t1" "T0" (fixBug "todo") initialStore)));
    [discriminate|reflexivity|discriminate|discriminate|].
  apply (bool_decide_unpack _). vm_compute. exact I.
Defined.

(** The confetti fires only when the drop moved the task to another lane,
    from a lane whose name does not mention done, complete or release to a
    lane whose name does. *)
Theorem handleDragEnd_confetti (a : string) (over : option string) (now : string) (s : Store) :
  snd (KanbanBoard.handleDragEnd a over now s) = true ->
  exists t t', tasks s !! a = Some t /\
    tasks (fst (KanbanBoard.handleDragEnd a over now s)) !! a = Some t' /\
    Task.status t' <> Task.status t /\
    Task.status t' ∈ SwimLane.id <$> filter (fun lane => KanbanBoard.isDoneLane lane = true) (swimLanes s) /\
    Task.status t ∉ SwimLane.id <$> filter (fun lane => KanbanBoard.isDoneLane lane = true) (swimLanes s).
Proof.
  unfold KanbanBoard.handleDragEnd.
  repeat case_match; cbn [snd fst]; intros Hsnd; try discriminate.
  all: apply andb_true_iff in Hsnd as [Hfrom Hto];
       apply negb_true_iff, bool_decide_eq_false in Hfrom; apply bool_decide_eq_true in Hto.
  all: match goal with
       | Ht : tasks _ !! _ = Some ?t, Hn : negb (String.eqb ?tg (Task.status ?t)) = true |- _ =>
           apply negb_true_iff, String.eqb_neq in Hn;
           exists t; eexists; split; [reflexivity|];
           rewrite moveTask_lookup, decide_True, Ht by done; cbn [fmap option_fmap option_map];
           rewrite decide_False by done; split; [reflexivity|]; cbn [Task.status]
       end.
  all: split; [done|]; split; done.
Qed.

Lemma handleDragEnd_confetti_witness :
  snd (KanbanBoard.handleDragEnd "t1" (Some "done") "T1" oneTaskStore) = true /\
  exists t t', tasks oneTaskStore !! "t1" = Some t /\
    tasks (fst (KanbanBoard.handleDragEnd "t1" (Some "done") "T1" oneTaskStore)) !! "t1" = Some t' /\
    Task.status t' <> Task.status t /\
    Task.status t' ∈ SwimLane.id <$>
      filter (fun lane => KanbanBoard.isDoneLane lane = true) (swimLanes oneTaskStore) /\
    Task.status t ∉ SwimLane.id <$>
      filter (fun lane => KanbanBoard.isDoneLane lane = true) (swimLanes oneTaskStore).
Proof.
  assert (H : snd (KanbanBoard.handleDragEnd "t1" (Some "done") "T1" oneTaskStore) = true)
    by reflexivity.
  split; [exact H|]. exact (handleDragEnd_confetti _ _ _ _ H).
Defined.

(* ------------------------------------------------------------------ *)
(* The lane manager's drag handler                                      *)
(* ------------------------------------------------------------------ *)

Lemma reorder_perm_of_ids (lanes : list SwimLane.t) (o : list string) :
  NoDup (SwimLane.id <$> lanes) -> o ≡ₚ SwimLane.id <$> lanes ->
  omap (fun id => laneMap lanes !! id) o ≡ₚ lanes.
Proof.
  intros Hnd Hp. apply NoDup_Permutation.
  - apply (NoDup_fmap_1 SwimLane.id). rewrite reorder_ids. apply NoDup_filter. by rewrite Hp.
  - by apply (NoDup_fmap_1 SwimLane.id).
  - intros lane. rewrite reorder_elem. split.
    + intros (x & _ & Hx). by apply (laneMap_Some _ x).
    + intros Hl. exists (SwimLane.id lane). split; [|by apply laneMap_unique].
      rewrite Hp. by apply list_elem_of_fmap_2.
Qed.

(** When the lane identifiers are distinct, dragging a lane in the lane
    manager leaves a permutation of the lanes: none is lost or
    duplicated; the tasks and the index are untouched. *)
Theorem laneDragEnd_perm (a : string) (over : option string) (s : Store) :
  NoDup (SwimLane.id <$> swimLanes s) ->
  swimLanes (SwimLaneManager.handleDragEnd a over s) ≡ₚ swimLanes s /\
  tasks (SwimLaneManager.handleDragEnd a over s) = tasks s /\
  tasksByStatus (SwimLaneManager.handleDragEnd a over s) = tasksByStatus s.
Proof.
  intros Hnd. unfold SwimLaneManager.handleDragEnd.
  repeat case_match; try done.
  split; [|done]. unfold reorderSwimLanes. cbn [swimLanes].
  apply reorder_perm_of_ids; [done|apply arrayMove_perm].
Qed.

Lemma laneDragEnd_perm_witness :
  NoDup (SwimLane.id <$> swimLanes initialStore) /\
  swimLanes (SwimLaneManager.handleDragEnd "done" (Some "todo") initialStore) ≡ₚ
    swimLanes initialStore.
Proof.
  assert (Hnd : NoDup (SwimLane.id <$> swimLanes initialStore))
    by (apply (bool_decide_unpack _); vm_compute; exact I).
  split; [exact Hnd|]. apply (laneDragEnd_perm "done" (Some "todo") _ Hnd).
Defined.

(* ------------------------------------------------------------------ *)
(* The task list page                                                   *)
(* ------------------------------------------------------------------ *)

Lemma filter_all_true {A} (P : A -> Prop) `{forall x, Decision (P x)} (l : list A) :
  (forall x, P x) -> filter P l = l.
Proof.
  intros HP. induction l as [|x l IH]; [done|].
  rewrite filter_cons_True by apply HP. by rewrite IH.
Qed.

(** After [clearFilters] the page lists every task of the store. *)
Theorem clearFilters_lists_all (toDateString : string -> string) (s : Store) :
  TasksPage.filteredTasks toDateString TasksPage.clearFilters s = TasksPage.allTasks s.
Proof.
  unfold TasksPage.filteredTasks. apply filter_all_true. intros task.
  unfold TasksPage.taskMatches. cbn. by destruct (Task.actualDeliveryDate task).
Qed.

Lemma priority_split (L : list Task.t) :
  length (filter (fun task => Task.priority task = P1) L) +
  length (filter (fun task => Task.priority task = P2) L) +
  length (filter (fun task => Task.priority task = P3) L) = length L.
Proof.
  induction L as [|t L IH]; [done|]. rewrite !filter_cons.
  destruct (Task.priority t); repeat case_decide; try congruence; cbn [length]; lia.
Qed.

(** The three priority counts of the page add up to the number of
    tasks: every task has priority 1, 2 or 3. *)
Theorem priorityCount_total (s : Store) :
  let '(high, medium, low) := TasksPage.priorityCount s in
  high + medium + low = size (tasks s).
Proof.
  unfold TasksPage.priorityCount. rewrite priority_split.
  unfold TasksPage.allTasks. by rewrite length_fmap, length_map_to_list.
Qed.

Lemma lowerAscii_idem (c : Ascii.ascii) : lowerAscii (lowerAscii c) = lowerAscii c.
Proof.
  destruct c as [b0 b1 b2 b3 b4 b5 b6 b7].
  destruct b0, b1, b2, b3, b4, b5, b6, b7; vm_compute; reflexivity.
Qed.

Lemma toLowerCase_idem (x : string) : toLowerCase (toLowerCase x) = toLowerCase x.
Proof.
  induction x as [|c x IH]; [done|]. cbn [toLowerCase]. by rewrite lowerAscii_idem, IH.
Qed.

Lemma truthy_toLowerCase (x : string) : TasksPage.truthy (toLowerCase x) = TasksPage.truthy x.
Proof. by destruct x. Qed.

(** The title and label filters ignore the case of the filter text:
    lower-casing it does not change which tasks are listed. *)
Theorem taskMatches_case_insensitive (toDateString : string -> string)
    (ti st pr la : string) (dd dl : option string) (task : Task.t) :
  TasksPage.taskMatches toDateString (TasksPage.mkFilters (toLowerCase ti) st pr (toLowerCase la) dd dl) task =
  TasksPage.taskMatches toDateString (TasksPage.mkFilters ti st pr la dd dl) task.
Proof.
  unfold TasksPage.taskMatches. cbn [TasksPage.titleFilter TasksPage.labelFilter
    TasksPage.statusFilter TasksPage.priorityFilter TasksPage.desiredDateFilter
    TasksPage.deliveredDateFilter].
  by rewrite !truthy_toLowerCase, !toLowerCase_idem.
Qed.

(** A task the page lists is a task of the store, and when a lane is
    picked in the status filter, its status is that lane. *)
Theorem filteredTasks_status (toDateString : string -> string) (f : TasksPage.Filters)
    (s : Store) (task : Task.t) :
  task ∈ TasksPage.filteredTasks toDateString f s ->
  TasksPage.statusFilter f <> "" -> TasksPage.statusFilter f <> "all" ->
  (exists k, tasks s !! k = Some task) /\ Task.status task = TasksPage.statusFilter f.
Proof.
  intros Hin Hne Hall. unfold TasksPage.filteredTasks in Hin.
  apply list_elem_of_filter in Hin as [Hm Hin]. split.
  - unfold TasksPage.allTasks in Hin. apply list_elem_of_fmap in Hin as ([k t] & -> & Hkt).
    exists k. by apply elem_of_map_to_list.
  - unfold TasksPage.taskMatches in Hm.
    destruct (_ && _); [discriminate|].
    unfold TasksPage.truthy in Hm.
    rewrite (proj2 (String.eqb_neq _ _) Hne), (proj2 (String.eqb_neq _ _) Hall) in Hm.
    cbn [negb andb] in Hm.
    destruct (String.eqb (Task.status task) (TasksPage.statusFilter f)) eqn:E.
    + by apply String.eqb_eq.
    + discriminate.
Qed.

Lemma filteredTasks_status_witness :
  let f := TasksPage.mkFilters "" "todo" "all" "" None None in
  snd (addTask "t1" "T0" (fixBug "todo") initialStore)
    ∈ TasksPage.filteredTasks (fun d => d) f oneTaskStore /\
  Task.status (snd (addTask "t1" "T0" (fixBug "todo") initialStore)) = "todo".
Proof.
  cbv zeta.
  assert (Hin : snd (addTask "t1" "T0" (fixBug "todo") initialStore)
    ∈ TasksPage.filteredTasks (fun d => d) (TasksPage.mkFilters "" "todo" "all" "" None None)
        oneTaskStore).
  { apply list_elem_of_In. vm_compute. left. reflexivity. }
  split; [exact Hin|].
  apply (filteredTasks_status _ _ _ _ Hin); discriminate.
Defined.

(* ------------------------------------------------------------------ *)
(* Reordering by drag within a lane                                     *)
(* ------------------------------------------------------------------ *)

Lemma arrayMove_lookup_to {A} (xs : list A) (from to : nat) (x : A) :
  xs !! from = Some x -> to < length xs -> arrayMove xs from to !! to = Some x.
Proof.
  intros Hx Hto. unfold arrayMove. rewrite Hx.
  pose proof (lookup_lt_Some _ _ _ Hx) as Hfrom.
  rewrite lookup_app_r; rewrite length_take, length_app, length_take, length_drop; [|lia].
  replace (to - _) with 0 by lia. done.
Qed.

Lemma findIndex_found {A} (p : A -> bool) (xs : list A) (x : A) :
  x ∈ xs -> p x = true -> exists i, findIndex p xs = Some i.
Proof.
  induction xs as [|y xs IH]; intros Hx Hp; [set_solver|]. cbn [findIndex].
  destruct (p y) eqn:Ey; [eauto|]. apply elem_of_cons in Hx as [->|Hx]; [congruence|].
  destruct (IH Hx Hp) as [i ->]. eauto.
Qed.

Lemma indexOf_found (xs : list string) (x : string) :
  x ∈ xs -> exists i, indexOf xs x = Some i.
Proof. intros Hx. apply (findIndex_found _ _ x Hx). apply String.eqb_refl. Qed.

(** Dropping task [a] on another task [overId] of the same lane (an
    identifier that is not a lane's), both listed in the lane's entry,
    puts [a] at the position [overId] had. *)
Theorem handleDragEnd_reorder_position (a overId now : string) (t ot : Task.t) (s : Store)
    (L : list string) :
  a <> "" -> tasks s !! a = Some t -> tasks s !! overId = Some ot -> overId <> a ->
  overId ∉ SwimLane.id <$> swimLanes s -> Task.status t <> "" ->
  Task.status ot = Task.status t -> tasksByStatus s !! Task.status t = Some L ->
  a ∈ L -> overId ∈ L ->
  exists j, indexOf L overId = Some j /\
    laneEntry (fst (KanbanBoard.handleDragEnd a (Some overId) now s)) (Task.status t) !! j = Some a.
Proof.
  intros Ha Ht Hot Hne Hlane Hst Hsame HL HaL HoL.
  destruct (indexOf_found L a HaL) as [i Hi].
  destruct (indexOf_found L overId HoL) as [j Hj].
  exists j. split; [done|].
  unfold KanbanBoard.handleDragEnd.
  rewrite (proj2 (String.eqb_neq a "") Ha), Ht, (proj2 (String.eqb_neq overId a) Hne).
  assert (Hex : existsb (fun lane => String.eqb (SwimLane.id lane) overId) (swimLanes s) = false).
  { apply not_true_iff_false. intros (lane & Hl & Heq)%existsb_exists.
    apply String.eqb_eq in Heq. apply Hlane. apply list_elem_of_fmap.
    exists lane. split; [done|]. by apply list_elem_of_In. }
  rewrite Hex, Hot. cbv beta iota zeta.
  change (Task.status <$> Some ot) with (Some (Task.status ot)). cbv beta iota. rewrite Hsame.
    rewrite (proj2 (String.eqb_neq _ "") Hst), String.eqb_refl. cbn [negb].
  rewrite HL, Hi, Hj. cbn [fst].
  unfold laneEntry, reorderTasks. cbn [tasksByStatus]. rewrite lookup_insert_eq. cbn.
  apply arrayMove_lookup_to; [by apply indexOf_Some|].
  apply lookup_lt_Some with overId. by apply indexOf_Some.
Qed.

Lemma handleDragEnd_reorder_position_witness :
  laneEntry twoTaskStore "todo" = ["t1"; "t2"] /\
  exists j, indexOf ["t1"; "t2"] "t1" = Some j /\
    laneEntry (fst (KanbanBoard.handleDragEnd "t2" (Some "t1") "T1" twoTaskStore)) "todo" !! j
      = Some "t2".
Proof.
  split; [reflexivity|].
  apply (handleDragEnd_reorder_position "t2" "t1" "T1"
           (snd (addTask "t2" "T0" (fixBug "todo") oneTaskStore))
           (snd (addTask "t1" "T0" (fixBug "todo") initialStore)) twoTaskStore ["t1"; "t2"]);
    [discriminate|reflexivity|reflexivity|discriminate| |discriminate|reflexivity|reflexivity
    |set_solver|set_solver].
  apply (bool_decide_unpack _). vm_compute. exact I.
Defined.

(* ------------------------------------------------------------------ *)
(* Deleting a lane while another one exists                             *)
(* ------------------------------------------------------------------ *)

(** The lane manager disables the delete button of the last lane. While
    another lane exists, [deleteSwimLane] removes no task: the tasks of
    the deleted lane are reassigned, not deleted. *)
Theorem deleteSwimLane_keeps_tasks (id now : string) (s : Store) :
  (exists lane, lane ∈ swimLanes s /\ SwimLane.id lane <> id) ->
  forall k, is_Some (tasks (deleteSwimLane id now s) !! k) <-> is_Some (tasks s !! k).
Proof.
  intros (lane & Hl & Hne) k.
  destruct (laneEntry s id) as [|x xs] eqn:E.
  - by rewrite (proj1 (dsl_empty id now s E)).
  - destruct (filter (fun lane => SwimLane.id lane ≠ id) (swimLanes s)) as [|target rest] eqn:F.
    + exfalso. assert (Hf : lane ∈ filter (fun lane => SwimLane.id lane ≠ id) (swimLanes s))
        by (apply list_elem_of_filter; done).
      rewrite F in Hf. set_solver.
    + destruct (dsl_target id now s target rest) as [Hk _]; [by rewrite E|exact F|].
      rewrite Hk. case_decide; [by rewrite fmap_is_Some|done].
Qed.

Lemma deleteSwimLane_keeps_tasks_witness :
  (exists lane, lane ∈ swimLanes oneTaskStore /\ SwimLane.id lane <> "todo") /\
  is_Some (tasks (deleteSwimLane "todo" "T1" oneTaskStore) !! "t1").
Proof.
  assert (H : exists lane, lane ∈ swimLanes oneTaskStore /\ SwimLane.id lane <> "todo").
  { exists (SwimLane.mk "done" "Done" "green"). split; [|discriminate].
    apply list_elem_of_In. vm_compute. tauto. }
  split; [exact H|]. apply (deleteSwimLane_keeps_tasks "todo" "T1" oneTaskStore H).
  vm_compute. eauto.
Defined.
